(** * enigma.py: a shallow embedding and its properties

    The program simulates a rotor cipher machine.  Every class of
    [enigma.py] becomes a record, every method a function over that record.
    Methods that mutate [self] or raise are written in a state-and-exception
    monad: a raised exception keeps the mutations made before it, as a Python
    object does. *)

From Stdlib Require Import ZArith Lia Ascii DecimalString DecimalZ DecimalPos.
From Equations Require Import Equations.
From stdpp Require Import gmap strings list fin_maps pretty.

Local Open Scope Z_scope.

(** ** Python values, exceptions and the monad *)

Inductive Exception :=
| AssertionError
| IndexError
| KeyError
| TypeError
| ValueError
| ZeroDivisionError.

Inductive Result (X : Type) :=
| Ok (x : X)
| Raise (e : Exception).
Arguments Ok {X} x.
Arguments Raise {X} e.

Definition res_bind {X Y} (r : Result X) (k : X -> Result Y) : Result Y :=
  match r with
  | Ok x => k x
  | Raise e => Raise e
  end.

(** A computation over a mutable object of type [S]. *)
Definition M (S X : Type) : Type := S -> Result X * S.

Definition ret {S X} (x : X) : M S X := fun s => (Ok x, s).

Definition raise {S X} (e : Exception) : M S X := fun s => (Raise e, s).

Definition bind {S X Y} (m : M S X) (k : X -> M S Y) : M S Y :=
  fun s =>
    match m s with
    | (Ok x, s') => k x s'
    | (Raise e, s') => (Raise e, s')
    end.

Definition lift {S X} (r : Result X) : M S X := fun s => (r, s).

Definition gets {S X} (f : S -> X) : M S X := fun s => (Ok (f s), s).

Definition modify {S} (f : S -> S) : M S unit := fun s => (Ok tt, f s).

(** A fallible read of the object. *)
Definition read {S X} (f : S -> Result X) : M S X := fun s => (f s, s).

(** Run a computation over a part [T] of the object [S]. *)
Definition zoom {S T X} (get : S -> T) (set : T -> S -> S) (m : M T X) : M S X :=
  fun s => let (r, t) := m (get s) in (r, set t s).

Notation "'do' x <- m ;; k" := (bind m (fun x => k))
  (at level 10, x name, m at level 99, k at level 200).
Notation "'run' m ;; k" := (bind m (fun _ => k))
  (at level 10, m at level 99, k at level 200).
Notation "'val' x <- r ;; k" := (res_bind r (fun x => k))
  (at level 10, x name, r at level 99, k at level 200).

(** [l[i]] on a list or deque: a negative index counts from the end. *)
Definition getitem {X} (l : list X) (i : Z) : Result X :=
  let n := Z.of_nat (length l) in
  let j := if decide (i < 0) then i + n else i in
  if decide (0 <= j < n) then
    match l !! Z.to_nat j with
    | Some x => Ok x
    | None => Raise IndexError
    end
  else Raise IndexError.

(** [l[i] = v]. *)
Definition setitem {X} (l : list X) (i : Z) (v : X) : Result (list X) :=
  let n := Z.of_nat (length l) in
  let j := if decide (i < 0) then i + n else i in
  if decide (0 <= j < n) then Ok (<[Z.to_nat j := v]> l) else Raise IndexError.

(** [a % b] on Python integers: the result takes the sign of [b]. *)
Definition py_mod (a b : Z) : Result Z :=
  if decide (b = 0) then Raise ZeroDivisionError else Ok (a mod b).

(** [deque.rotate(1)]: the last element moves to the front. *)
Definition deque_rotate1 {X} (d : list X) : list X :=
  match last d with
  | Some x => x :: take (length d - 1)%nat d
  | None => d
  end.

(** Build an object: run the body of [__init__] on the fields set so far. *)
Definition construct {S} (self : S) (body : M S unit) : Result S :=
  match body self with
  | (Ok _, self') => Ok self'
  | (Raise e, _) => Raise e
  end.

(** ** The [random] module

    The generator is the process-wide source of randomness.  It is modelled
    as a tape of natural numbers read from left to right: each draw of the
    library is decided by the next number on the tape. *)

Record Random := mkRandom { tape : nat -> nat; cursor : nat }.

Definition draw : M Random nat :=
  fun g => (Ok (tape g (cursor g)), mkRandom (tape g) (S (cursor g))).

(** [randint(a, b)]: an integer [N] with [a <= N <= b], both ends included. *)
Definition randint (a b : Z) : M Random Z :=
  if decide (a <= b) then
    do d <- draw ;; ret (a + Z.of_nat d mod (b - a + 1))
  else raise ValueError.

(** [shuffle(x)]: the sequence is replaced by one of its permutations.  The
    tape picks, position by position, which remaining element comes next. *)
Fixpoint shuffle_pick {X} (n : nat) (l : list X) : M Random (list X) :=
  match n with
  | O => ret []
  | S n' =>
      do d <- draw ;;
      let j := (d mod length l)%nat in
      match l !! j with
      | Some x => do rest <- shuffle_pick n' (delete j l) ;; ret (x :: rest)
      | None => ret []
      end
  end.

Definition shuffle {X} (l : list X) : M Random (list X) :=
  shuffle_pick (length l) l.

(** ** Strings

    A [str] is a [string] of 8-bit characters; the program only builds
    strings over the letters [a..z] and the space. *)

Definition ord (c : ascii) : Z := Z.of_nat (nat_of_ascii c).

(** [chr(n)], for the code points an [ascii] can hold. *)
Definition chr (n : Z) : Result ascii :=
  if decide (0 <= n < 256) then Ok (ascii_of_nat (Z.to_nat n)) else Raise ValueError.

(** [c.lower()] on one character (Latin-1: A..Z and the accented capitals). *)
Definition lower_char (c : ascii) : ascii :=
  let n := nat_of_ascii c in
  if decide ((65 <= n <= 90)%nat \/ ((192 <= n <= 222)%nat /\ n <> 215%nat))
  then ascii_of_nat (n + 32) else c.

Fixpoint lower (s : string) : string :=
  match s with
  | EmptyString => EmptyString
  | String c r => String (lower_char c) (lower r)
  end.

(** [s.split(sep)] for a separator of one character. *)
Fixpoint split (sep : ascii) (s : string) : list string :=
  match s with
  | EmptyString => [EmptyString]
  | String c r =>
      if decide (c = sep) then EmptyString :: split sep r
      else match split sep r with
           | h :: t => String c h :: t
           | [] => [String c EmptyString]
           end
  end.

(** [sep.join(l)]. *)
Fixpoint join (sep : string) (l : list string) : string :=
  match l with
  | [] => EmptyString
  | [s] => s
  | s :: r => s +:+ sep +:+ join sep r
  end.

(** [s[i]]: the character of [s] at index [i]. *)
Definition str_getitem (s : string) (i : Z) : Result ascii :=
  getitem (String.list_ascii_of_string s) i.

(** [str(n)] and [int(s)] on integers, in decimal.  [py_int] reads the plain
    numerals that [str] writes; the other spellings that [int] accepts
    (blanks around the numeral, a plus sign, underscores) read as a
    [ValueError]. *)
Definition py_str (n : Z) : string := NilZero.string_of_int (Z.to_int n).

Definition py_int (s : string) : Result Z :=
  match NilZero.int_of_string s with
  | Some d => Ok (Z.of_int d)
  | None => Raise ValueError
  end.

(** ** [json] and [configparser]

    [dumps] writes a list of integers as [[a, b, c]]; [loads] reads that
    form back.  Other JSON texts are outside the model and read as a
    [ValueError]. *)

Definition dumps (l : list Z) : string :=
  "[" +:+ join ", " (py_str <$> l) +:+ "]".

Fixpoint str_unsnoc (s : string) : option (string * ascii) :=
  match s with
  | EmptyString => None
  | String c r =>
      match str_unsnoc r with
      | None => Some (EmptyString, c)
      | Some (init, z) => Some (String c init, z)
      end
  end.

Fixpoint lstrip (s : string) : string :=
  match s with
  | String " " r => lstrip r
  | _ => s
  end.

Fixpoint loads_items (tokens : list string) : Result (list Z) :=
  match tokens with
  | [] => Ok []
  | t :: rest =>
      val n <- py_int (lstrip t) ;;
      val ns <- loads_items rest ;;
      Ok (n :: ns)
  end.

Definition loads (s : string) : Result (list Z) :=
  match s with
  | String "[" r =>
      match str_unsnoc r with
      | Some (EmptyString, "]"%char) => Ok []
      | Some (body, "]"%char) => loads_items (split "," body)
      | _ => Raise ValueError
      end
  | _ => Raise ValueError
  end.

(** A [ConfigParser] maps section names to sections, a section maps option
    names to text.  Option names are stored in lower case ([optionxform]).
    A file holds the sections that [write] put there; the text encoding of
    the file, the [DEFAULT] section and value interpolation are not
    modelled: a parser is one that holds no defaults, and a value is one
    without the character [%], as the program writes them. *)
Abbreviation ConfigParser := (gmap string (gmap string string)).
Abbreviation FileSystem := (gmap string ConfigParser).

Definition optionxform (key : string) : string := lower key.

(** [cfg[section][key]]. *)
Definition cfg_get (cfg : ConfigParser) (section key : string) : Result string :=
  match cfg !! section with
  | None => Raise KeyError
  | Some options =>
      match options !! optionxform key with
      | Some v => Ok v
      | None => Raise KeyError
      end
  end.

(** [if cfgSection not in cfg.sections(): cfg[cfgSection] = {}]. *)
Definition cfg_ensure (section : string) : M ConfigParser unit :=
  fun cfg =>
    match cfg !! section with
    | None => (Ok tt, <[section := ∅]> cfg)
    | Some _ => (Ok tt, cfg)
    end.

(** [cfg[section][key] = value]. *)
Definition cfg_set (section key value : string) : M ConfigParser unit :=
  fun cfg =>
    match cfg !! section with
    | None => (Raise KeyError, cfg)
    | Some options => (Ok tt, <[section := <[optionxform key := value]> options]> cfg)
    end.

(** [cfg.read(path)] of an existing file: the file's options are added to
    the parser's, and win where both have one. *)
Definition cfg_read (file cfg : ConfigParser) : ConfigParser :=
  union_with (fun new old => Some (new ∪ old)) file cfg.

(** ** The machine *)

Section Enigma.

(** The module [consts] is not part of the sources: its three constants are
    parameters of the development. *)
Variable ALPHABET_SIZE : Z.
Variable NUM_ROTORS : Z.

(** Modelled from the spec: [consts.ALPHABET_UNIVERSE], the alphabet index
    space, the integers [0..A-1]. *)
Definition ALPHABET_UNIVERSE : list Z := seqZ 0 ALPHABET_SIZE.

(** *** Helper functions *)

Definition randomNumber : M Random Z := randint 0 ALPHABET_SIZE.

Definition charToNumber (char : ascii) : Z := ord char - ord "a".

Definition numberToChar (number : Z) : Result ascii := chr (ord "a" + number).

(** One round of the loop of [getRandomPlugboardString]: shuffle the unused
    letters, pop two from the left, format them as a two-letter key. *)
Definition plugboardKey (mapping : list Z) : M Random (list Z * string) :=
  do mapping <- shuffle mapping ;;
  match mapping with
  | numA :: numB :: mapping' =>
      lift (val a <- numberToChar numA ;;
            val b <- numberToChar numB ;;
            Ok (mapping', String a (String b EmptyString)))
  | _ => raise IndexError
  end.

Fixpoint plugboardKeys (numPairs : nat) (mapping : list Z) (keys : list string)
  : M Random (list string) :=
  match numPairs with
  | O => ret keys
  | S n =>
      do mk <- plugboardKey mapping ;;
      plugboardKeys n (fst mk) (keys ++ [snd mk])
  end.

Definition getRandomPlugboardString : M Random string :=
  do numPairs <- randint 1 10 ;;
  do keys <- plugboardKeys (Z.to_nat numPairs) ALPHABET_UNIVERSE [] ;;
  ret (join " " keys).

(** *** AlphabetRing *)

Record AlphabetRing := mkAlphabetRing { AlphabetRing__notch : Z }.

Definition AlphabetRing_init : M Random AlphabetRing :=
  do notch <- randomNumber ;; ret (mkAlphabetRing notch).

Definition AlphabetRing_loadCfg (cfg : ConfigParser) (cfgSection : string)
  : M AlphabetRing unit :=
  do text <- lift (cfg_get cfg cfgSection "notch") ;;
  do n <- lift (py_int text) ;;
  modify (fun _ => mkAlphabetRing n).

Definition AlphabetRing_saveCfg (self : AlphabetRing) (cfgSection : string)
  : M ConfigParser unit :=
  run cfg_ensure cfgSection ;;
  cfg_set cfgSection "notch" (py_str (AlphabetRing__notch self)).

Definition notch (self : AlphabetRing) : Z := AlphabetRing__notch self.

(** *** RotorDisc *)

Record RotorDisc := mkRotorDisc { RotorDisc__mapping : list Z }.

Definition RotorDisc_init : M Random RotorDisc :=
  do mapping <- shuffle ALPHABET_UNIVERSE ;; ret (mkRotorDisc mapping).

Definition RotorDisc_get (self : RotorDisc) (num : Z) : Result Z :=
  if decide (num ∈ ALPHABET_UNIVERSE) then getitem (RotorDisc__mapping self) num
  else Raise AssertionError.

Definition RotorDisc_loadCfg (cfg : ConfigParser) (cfgSection : string)
  : M RotorDisc unit :=
  do text <- lift (cfg_get cfg cfgSection "config") ;;
  do mapping <- lift (loads text) ;;
  modify (fun _ => mkRotorDisc mapping).

Definition RotorDisc_saveCfg (self : RotorDisc) (cfgSection : string)
  : M ConfigParser unit :=
  run cfg_ensure cfgSection ;;
  cfg_set cfgSection "config" (dumps (RotorDisc__mapping self)).

Definition RotorDisc_rotate (self : RotorDisc) : RotorDisc :=
  mkRotorDisc (deque_rotate1 (RotorDisc__mapping self)).

(** *** Reflector *)

Record Reflector := mkReflector { Reflector__mapping : list Z }.

Definition Reflector_init : M Random Reflector :=
  do mapping <- shuffle ALPHABET_UNIVERSE ;; ret (mkReflector mapping).

Definition Reflector_get (self : Reflector) (num : Z) : Result Z :=
  if decide (num ∈ ALPHABET_UNIVERSE) then getitem (Reflector__mapping self) num
  else Raise AssertionError.

Definition Reflector_loadCfg (cfg : ConfigParser) (cfgSection : string)
  : M Reflector unit :=
  do text <- lift (cfg_get cfg cfgSection "config") ;;
  do mapping <- lift (loads text) ;;
  modify (fun _ => mkReflector mapping).

Definition Reflector_saveCfg (self : Reflector) (cfgSection : string)
  : M ConfigParser unit :=
  run cfg_ensure cfgSection ;;
  cfg_set cfgSection "config" (dumps (Reflector__mapping self)).

(** *** Plugboard *)

Record Plugboard := mkPlugboard {
  Plugboard__mapping : list Z;
  Plugboard__str : string
}.

Definition Plugboard__connect (keyA keyB : ascii) : M Plugboard unit :=
  fun self =>
    if decide (keyA = keyB) then (Raise AssertionError, self)
    else
      let numA := charToNumber keyA in
      let numB := charToNumber keyB in
      if decide (numA ∈ ALPHABET_UNIVERSE) then
        if decide (numB ∈ ALPHABET_UNIVERSE) then
          match setitem (Plugboard__mapping self) numA numB with
          | Raise e => (Raise e, self)
          | Ok m1 =>
              let self1 := mkPlugboard m1 (Plugboard__str self) in
              match setitem m1 numB numA with
              | Raise e => (Raise e, self1)
              | Ok m2 => (Ok tt, mkPlugboard m2 (Plugboard__str self))
              end
          end
        else (Raise AssertionError, self)
      else (Raise AssertionError, self).

Fixpoint Plugboard__setup_loop (tokens : list string) : M Plugboard unit :=
  match tokens with
  | [] => ret tt
  | keys :: rest =>
      let keys := lower keys in
      do keyA <- lift (str_getitem keys 0) ;;
      do keyB <- lift (str_getitem keys 1) ;;
      run Plugboard__connect keyA keyB ;;
      Plugboard__setup_loop rest
  end.

Definition Plugboard__setup : M Plugboard unit :=
  fun self => Plugboard__setup_loop (split " " (Plugboard__str self)) self.

Definition Plugboard_init : M Random Plugboard :=
  do str <- getRandomPlugboardString ;;
  lift (construct (mkPlugboard ALPHABET_UNIVERSE str) Plugboard__setup).

Definition Plugboard_get (self : Plugboard) (num : Z) : Result Z :=
  getitem (Plugboard__mapping self) num.

Definition Plugboard_loadCfg (cfg : ConfigParser) (cfgSection : string)
  : M Plugboard unit :=
  do text <- lift (cfg_get cfg cfgSection "settings") ;;
  run modify (fun self => mkPlugboard (Plugboard__mapping self) text) ;;
  Plugboard__setup.

Definition Plugboard_saveCfg (self : Plugboard) (cfgSection : string)
  : M ConfigParser unit :=
  run cfg_ensure cfgSection ;;
  cfg_set cfgSection "settings" (Plugboard__str self).

(** *** Rotor *)

Record Rotor := mkRotor {
  _rotor_disc : RotorDisc;
  _alphabet_ring : AlphabetRing;
  Rotor__ringstellung : Z
}.

(** The module-level state of [enigma.py]: the default value of the
    [ringstellung] argument of [Rotor.__init__], the value of
    [randomNumber()] when the [def] statement was executed. *)
Record Globals := mkGlobals { Rotor_init_defaults : Z }.

Definition import_enigma : M Random Globals :=
  do ringstellung <- randomNumber ;; ret (mkGlobals ringstellung).

Definition Rotor_init (globals : Globals) (ringstellung : option Z) : M Random Rotor :=
  let ringstellung := default (Rotor_init_defaults globals) ringstellung in
  do disc <- RotorDisc_init ;;
  do ring <- AlphabetRing_init ;;
  ret (mkRotor disc ring ringstellung).

Definition Rotor_rotate (self : Rotor) : Rotor :=
  mkRotor (RotorDisc_rotate (_rotor_disc self)) (_alphabet_ring self)
    (Rotor__ringstellung self).

Definition alphabet_ring (self : Rotor) : AlphabetRing := _alphabet_ring self.

Definition Rotor_loadCfg (cfg : ConfigParser) (cfgSection : string) : M Rotor unit :=
  do text <- lift (cfg_get cfg cfgSection "Ringstellung") ;;
  do n <- lift (py_int text) ;;
  run modify (fun self => mkRotor (_rotor_disc self) (_alphabet_ring self) n) ;;
  run zoom _rotor_disc
      (fun d self => mkRotor d (_alphabet_ring self) (Rotor__ringstellung self))
      (RotorDisc_loadCfg cfg cfgSection) ;;
  zoom _alphabet_ring
    (fun r self => mkRotor (_rotor_disc self) r (Rotor__ringstellung self))
    (AlphabetRing_loadCfg cfg cfgSection).

Definition Rotor_saveCfg (self : Rotor) (cfgSection : string) : M ConfigParser unit :=
  run cfg_ensure cfgSection ;;
  run cfg_set cfgSection "Ringstellung" (py_str (Rotor__ringstellung self)) ;;
  run RotorDisc_saveCfg (_rotor_disc self) cfgSection ;;
  AlphabetRing_saveCfg (_alphabet_ring self) cfgSection.

Definition Rotor_get (self : Rotor) (num : Z) : Result Z :=
  val num <- py_mod (num + Rotor__ringstellung self) ALPHABET_SIZE ;;
  RotorDisc_get (_rotor_disc self) num.

(** *** PawlAndRatchetMechanism

    [self._rotors] is the very list object that the owning [RotorAssembly]
    holds, so the rotors are stored once, here, and the assembly reads and
    updates them through its mechanism. *)

Record PawlAndRatchetMechanism := mkPawlAndRatchetMechanism {
  _rotors : list Rotor;
  _n : Z;
  _rotation_count : list Z
}.

Definition PawlAndRatchetMechanism_init (rotors : list Rotor)
  : PawlAndRatchetMechanism :=
  let n := Z.of_nat (length rotors) in
  mkPawlAndRatchetMechanism rotors n (replicate (Z.to_nat (n - 1)) 0).

Definition PawlAndRatchetMechanism__rotate_rotor (index : Z)
  : M PawlAndRatchetMechanism unit :=
  do c <- read (fun self => getitem (_rotation_count self) index) ;;
  do c' <- lift (py_mod (c + 1) ALPHABET_SIZE) ;;
  do count <- read (fun self => setitem (_rotation_count self) index c') ;;
  run modify (fun self => mkPawlAndRatchetMechanism (_rotors self) (_n self) count) ;;
  do rotor <- read (fun self => getitem (_rotors self) index) ;;
  do rotors <- read (fun self => setitem (_rotors self) index (Rotor_rotate rotor)) ;;
  modify (fun self =>
            mkPawlAndRatchetMechanism rotors (_n self) (_rotation_count self)).

(** The first loop of [rotate]: [for idx in range(1, self._n)]. *)
Fixpoint pending_loop (self : PawlAndRatchetMechanism) (idxs : list Z)
    (pending_rotations : list bool) : Result (list bool) :=
  match idxs with
  | [] => Ok pending_rotations
  | idx :: rest =>
      val c <- getitem (_rotation_count self) (idx - 1) ;;
      val rotor <- getitem (_rotors self) (idx - 1) ;;
      val pending_rotations <-
        (if decide (c = notch (alphabet_ring rotor))
         then setitem pending_rotations idx true
         else Ok pending_rotations) ;;
      pending_loop self rest pending_rotations
  end.

Definition pending_rotations (self : PawlAndRatchetMechanism) : Result (list bool) :=
  val pending <- setitem (replicate (length (_rotors self)) false) 0 true ;;
  pending_loop self (seqZ 1 (_n self - 1)) pending.

(** The second loop: [for idx, pending in enumerate(pending_rotations)]. *)
Fixpoint perform_rotations (idx : Z) (pending_rotations : list bool)
  : M PawlAndRatchetMechanism unit :=
  match pending_rotations with
  | [] => ret tt
  | pending :: rest =>
      run (if pending then PawlAndRatchetMechanism__rotate_rotor idx else ret tt) ;;
      perform_rotations (idx + 1) rest
  end.

Definition PawlAndRatchetMechanism_rotate : M PawlAndRatchetMechanism unit :=
  do pending <- read pending_rotations ;;
  perform_rotations 0 pending.

(** *** RotorAssembly *)

Record RotorAssembly := mkRotorAssembly {
  _reflector : Reflector;
  _prm : PawlAndRatchetMechanism
}.

Definition RotorAssembly_rotors (self : RotorAssembly) : list Rotor :=
  _rotors (_prm self).

Definition with_prm (prm : PawlAndRatchetMechanism) (self : RotorAssembly)
  : RotorAssembly :=
  mkRotorAssembly (_reflector self) prm.

Definition with_reflector (reflector : Reflector) (self : RotorAssembly)
  : RotorAssembly :=
  mkRotorAssembly reflector (_prm self).

Definition with_rotors (rotors : list Rotor) (self : RotorAssembly)
  : RotorAssembly :=
  mkRotorAssembly (_reflector self)
    (mkPawlAndRatchetMechanism rotors (_n (_prm self)) (_rotation_count (_prm self))).

(** [[Rotor() for _ in range(0, NUM_ROTORS)]]. *)
Fixpoint Rotors_init (globals : Globals) (n : nat) : M Random (list Rotor) :=
  match n with
  | O => ret []
  | S n' =>
      do rotor <- Rotor_init globals None ;;
      do rest <- Rotors_init globals n' ;;
      ret (rotor :: rest)
  end.

Definition RotorAssembly_init (globals : Globals) : M Random RotorAssembly :=
  do rotors <- Rotors_init globals (Z.to_nat NUM_ROTORS) ;;
  do reflector <- Reflector_init ;;
  ret (mkRotorAssembly reflector (PawlAndRatchetMechanism_init rotors)).

Definition RotorAssembly_rotate : M RotorAssembly unit :=
  zoom _prm with_prm PawlAndRatchetMechanism_rotate.

(** The objects of [obj_list]: each has a [get]. *)
Inductive Substitution :=
| OfRotor (rotor : Rotor)
| OfReflector (reflector : Reflector).

Definition Substitution_get (obj : Substitution) (value : Z) : Result Z :=
  match obj with
  | OfRotor rotor => Rotor_get rotor value
  | OfReflector reflector => Reflector_get reflector value
  end.

Definition obj_list (self : RotorAssembly) : list Substitution :=
  (OfRotor <$> RotorAssembly_rotors self)
    ++ [OfReflector (_reflector self)]
    ++ (OfRotor <$> reverse (RotorAssembly_rotors self)).

(** The local recursive function [apply] of [RotorAssembly.get]. *)
Equations? apply (objs : list Substitution) (value : Z) (idx : nat) : Result Z
  by wf (length objs - idx)%nat lt :=
  apply objs value idx with decide (idx = length objs) := {
    | left _ := Ok value
    | right _ with Equations.Prop.Logic.inspect (objs !! idx) := {
        | exist _ None _ := Raise IndexError
        | exist _ (Some obj) Hobj with Substitution_get obj value := {
            | Raise e := Raise e
            | Ok v := apply objs v (idx + 1)%nat } } }.
Proof. apply lookup_lt_Some in Hobj. lia. Qed.

Definition RotorAssembly_get (num : Z) : M RotorAssembly Z :=
  do value <- read (fun self => apply (obj_list self) num 0) ;;
  run zoom _prm with_prm PawlAndRatchetMechanism_rotate ;;
  ret value.

Definition rotorSectionName (idx : nat) : string :=
  "Rotor_" +:+ pretty (idx + 1)%nat.

(** [for idx, rotor in enumerate(self._rotors): rotor.loadCfg(...)]. *)
Fixpoint Rotors_loadCfg (cfg : ConfigParser) (idx : nat) : M (list Rotor) unit :=
  fun rotors =>
    match rotors with
    | [] => (Ok tt, [])
    | rotor :: rest =>
        match Rotor_loadCfg cfg (rotorSectionName idx) rotor with
        | (Ok _, rotor') =>
            let (r, rest') := Rotors_loadCfg cfg (S idx) rest in
            (r, rotor' :: rest')
        | (Raise e, rotor') => (Raise e, rotor' :: rest)
        end
    end.

Definition RotorAssembly_loadCfg (cfg : ConfigParser) : M RotorAssembly unit :=
  run (if decide (is_Some (cfg !! "Reflector"))
       then zoom _reflector with_reflector (Reflector_loadCfg cfg "Reflector")
       else ret tt) ;;
  zoom RotorAssembly_rotors with_rotors (Rotors_loadCfg cfg 0).

Fixpoint Rotors_saveCfg (rotors : list Rotor) (idx : nat) : M ConfigParser unit :=
  match rotors with
  | [] => ret tt
  | rotor :: rest =>
      run Rotor_saveCfg rotor (rotorSectionName idx) ;;
      Rotors_saveCfg rest (S idx)
  end.

Definition RotorAssembly_saveCfg (self : RotorAssembly) : M ConfigParser unit :=
  run Reflector_saveCfg (_reflector self) "Reflector" ;;
  Rotors_saveCfg (RotorAssembly_rotors self) 0.

(** *** Keyboard and LightingBox

    The key is a [str] that comes from the terminal, of any length:
    [charToNumber] takes [ord] of it, which raises [TypeError] unless the
    [str] has one character.  As everywhere in this file its characters are
    8-bit; from code point 256 on [lower] needs the Unicode tables and is
    outside the model. *)

Definition pressKey (key : string) : Result Z :=
  let key := lower key in
  match key with
  | String char EmptyString =>
      let value := charToNumber char in
      if decide (value ∈ ALPHABET_UNIVERSE) then Ok value else Raise AssertionError
  | _ => Raise TypeError
  end.

Definition lightUp (num : Z) : Result ascii := numberToChar num.

(** *** Enigma

    [run], the endless loop that reads a key, encodes it and prints the
    letter, belongs to the terminal and is left out; one turn of it is
    [pressKey], [Enigma_get], [lightUp]. *)

Record Enigma := mkEnigma {
  _rotor_asm : RotorAssembly;
  _plugboard : Plugboard;
  _config : ConfigParser
}.

Definition with_rotor_asm (asm : RotorAssembly) (self : Enigma) : Enigma :=
  mkEnigma asm (_plugboard self) (_config self).

Definition with_config (cfg : ConfigParser) (self : Enigma) : Enigma :=
  mkEnigma (_rotor_asm self) (_plugboard self) cfg.

Definition Enigma_init (globals : Globals) : M Random Enigma :=
  do asm <- RotorAssembly_init globals ;;
  do plugboard <- Plugboard_init ;;
  ret (mkEnigma asm plugboard ∅).

Definition isConfigFilePresent (fs : FileSystem) (configFilePath : string) : bool :=
  bool_decide (is_Some (fs !! configFilePath)).

Definition Enigma_loadCfg (fs : FileSystem) (configFilePath : string) : M Enigma unit :=
  if isConfigFilePresent fs configFilePath then
    let file := default ∅ (fs !! configFilePath) in
    run modify (fun self => with_config (cfg_read file (_config self)) self) ;;
    do cfg <- gets _config ;;
    zoom _rotor_asm with_rotor_asm (RotorAssembly_loadCfg cfg)
  else ret tt.

(** [saveCfg] changes the parser of the machine and the file system. *)
Definition Enigma_saveCfg (configFilePath : string) : M (Enigma * FileSystem) unit :=
  do asm <- gets (fun st => _rotor_asm (fst st)) ;;
  do plugboard <- gets (fun st => _plugboard (fst st)) ;;
  run zoom (fun st => _config (fst st))
      (fun cfg st => (with_config cfg (fst st), snd st))
      (run RotorAssembly_saveCfg asm ;; Plugboard_saveCfg plugboard "Plugboard") ;;
  modify (fun st => (fst st, <[configFilePath := _config (fst st)]> (snd st))).

Definition Enigma_get (num : Z) : M Enigma Z :=
  do num <- read (fun self => Plugboard_get (_plugboard self) num) ;;
  do num <- zoom _rotor_asm with_rotor_asm (RotorAssembly_get num) ;;
  do num <- read (fun self => Plugboard_get (_plugboard self) num) ;;
  ret num.

(** One turn of the loop of [run], for the line [key] that [input()] read:
    [num = self.get(Keyboard.pressKey(key)); LightingBox.lightUp(num)]. *)
Definition Enigma_run_turn (key : string) : M Enigma ascii :=
  do num <- lift (pressKey key) ;;
  do num <- Enigma_get num ;;
  lift (lightUp num).

End Enigma.

(** ** Vocabulary of the statements *)

(** [m] returns a value that satisfies [P], whatever the state it starts in. *)
Definition always {S X} (m : M S X) (P : X -> Prop) : Prop :=
  forall s, exists x s', m s = (Ok x, s') /\ P x.

(** The options that [Rotor.saveCfg] writes into a section. *)
Definition rotor_options (r : Rotor) (options : gmap string string)
  : gmap string string :=
  <["notch" := py_str (notch (alphabet_ring r))]>
    (<["config" := dumps (RotorDisc__mapping (_rotor_disc r))]>
       (<["ringstellung" := py_str (Rotor__ringstellung r)]> options)).

(** Section [section] of [cfg] holds the three fields of rotor [r]. *)
Definition rotor_saved (r : Rotor) (cfg : ConfigParser) (section : string) : Prop :=
  cfg_get cfg section "Ringstellung" = Ok (py_str (Rotor__ringstellung r))
  /\ cfg_get cfg section "notch" = Ok (py_str (notch (alphabet_ring r)))
  /\ cfg_get cfg section "config" = Ok (dumps (RotorDisc__mapping (_rotor_disc r))).

(** Every character of a string satisfies [P]. *)
Fixpoint str_Forall (P : ascii -> Prop) (s : string) : Prop :=
  match s with
  | EmptyString => True
  | String c r => P c /\ str_Forall P r
  end.

(** A character of a decimal numeral: no comma, no space. *)
Definition numeral_char (c : ascii) : Prop := c <> ","%char /\ c <> " "%char.

(** The letter of an index, the key of a pair of indices, and the letters
    that a list of pairs uses. *)
Definition letter (n : Z) : ascii := ascii_of_nat (Z.to_nat (97 + n)).

Definition key_of (ab : Z * Z) : string :=
  String (letter (fst ab)) (String (letter (snd ab)) EmptyString).

Definition pair_letters (pairs : list (Z * Z)) : list Z :=
  flat_map (fun ab => [fst ab; snd ab]) pairs.

(** A mapping of the machine: [A] entries, each an index of the alphabet. *)
Definition wf_mapping (A : Z) (mapping : list Z) : Prop :=
  Z.of_nat (length mapping) = A /\ Forall (fun x => 0 <= x < A) mapping.

Definition wf_Enigma (A : Z) (e : Enigma) : Prop :=
  wf_mapping A (Plugboard__mapping (_plugboard e))
  /\ wf_mapping A (Reflector__mapping (_reflector (_rotor_asm e)))
  /\ Forall (fun r => wf_mapping A (RotorDisc__mapping (_rotor_disc r)))
       (RotorAssembly_rotors (_rotor_asm e)).

(** The signal path in the words of the specification: a lookup in the
    plugboard, the rotors in order, the reflector, the rotors in reverse
    order, the plugboard again.  A rotor stage looks up
    [(i + ringOffset) mod A] in its disc. *)
Definition at_index (mapping : list Z) (i : Z) : Z :=
  default 0 (mapping !! Z.to_nat i).

Definition rotor_stage (A : Z) (r : Rotor) (i : Z) : Z :=
  at_index (RotorDisc__mapping (_rotor_disc r)) ((i + Rotor__ringstellung r) mod A).

Definition rotor_chain (A : Z) (asm : RotorAssembly) (i : Z) : Z :=
  let rotors := RotorAssembly_rotors asm in
  let forward := foldl (fun x r => rotor_stage A r x) i rotors in
  let reflected := at_index (Reflector__mapping (_reflector asm)) forward in
  foldl (fun x r => rotor_stage A r x) reflected (reverse rotors).

Definition signal_path (A : Z) (e : Enigma) (i : Z) : Z :=
  let plug := at_index (Plugboard__mapping (_plugboard e)) in
  plug (rotor_chain A (_rotor_asm e) (plug i)).

(** [apply(value, 0)] visits the objects of [obj_list] from left to right. *)
Fixpoint through (A : Z) (objs : list Substitution) (value : Z) : Result Z :=
  match objs with
  | [] => Ok value
  | obj :: rest => val v <- Substitution_get A obj value ;; through A rest v
  end.

(** A mechanism as [PawlAndRatchetMechanism(rotors)] builds it: one counter
    for every rotor but the last. *)
Definition wf_prm (prm : PawlAndRatchetMechanism) : Prop :=
  _n prm = Z.of_nat (length (_rotors prm))
  /\ S (length (_rotation_count prm)) = length (_rotors prm).

(** Which rotors a keystroke flags: rotor 0, and rotor [idx] when the counter
    of rotor [idx - 1] stands at the notch of rotor [idx - 1]. *)
Definition at_notch (c : Z) (r : Rotor) : bool :=
  bool_decide (c = notch (alphabet_ring r)).

Definition turnover_flags (prm : PawlAndRatchetMechanism) : list bool :=
  true :: zip_with at_notch (_rotation_count prm) (_rotors prm).

(** The flagged rotors rotated, the flagged counters incremented. *)
Fixpoint stepped_rotors (flags : list bool) (rotors : list Rotor) : list Rotor :=
  match flags, rotors with
  | f :: fs, r :: rs => (if f then Rotor_rotate r else r) :: stepped_rotors fs rs
  | _, _ => rotors
  end.

Fixpoint stepped_counts (A : Z) (flags : list bool) (count : list Z) : list Z :=
  match flags, count with
  | f :: fs, c :: cs => (if f then (c + 1) mod A else c) :: stepped_counts A fs cs
  | _, _ => count
  end.

(** The rule of [rotate] for one rotor: rotor 0 advances; rotor [idx + 1]
    advances when the counter of rotor [idx] stands at the notch of rotor
    [idx]. *)
Definition advances (prm : PawlAndRatchetMechanism) (idx : nat) : bool :=
  match idx with
  | O => true
  | S k =>
      match _rotation_count prm !! k, _rotors prm !! k with
      | Some c, Some r => at_notch c r
      | _, _ => false
      end
  end.

(** The index of the last rotor. *)
Definition last_rotor (prm : PawlAndRatchetMechanism) : nat :=
  (length (_rotors prm) - 1)%nat.

(** What a keystroke never touches in a rotor: its notch and ring offset. *)
Definition rotor_setting (r : Rotor) : Z * Z :=
  (notch (alphabet_ring r), Rotor__ringstellung r).

(** Every mapping of the machine is a permutation of the alphabet. *)
Definition permutation_Enigma (A : Z) (e : Enigma) : Prop :=
  Plugboard__mapping (_plugboard e) ≡ₚ ALPHABET_UNIVERSE A
  /\ Reflector__mapping (_reflector (_rotor_asm e)) ≡ₚ ALPHABET_UNIVERSE A
  /\ Forall (fun r => RotorDisc__mapping (_rotor_disc r) ≡ₚ ALPHABET_UNIVERSE A)
       (RotorAssembly_rotors (_rotor_asm e)).

(** The capital of a letter. *)
Definition capital (n : Z) : ascii := ascii_of_nat (Z.to_nat (65 + n)).

(** The tape that repeats one number. *)
Definition tape_const (d : nat) : Random := mkRandom (fun _ => d) 0.

(** ** Concrete machines, alphabet [a..z] *)

Definition disc_identity : RotorDisc := mkRotorDisc (seqZ 0 26).

Definition rotor_identity : Rotor := mkRotor disc_identity (mkAlphabetRing 5) 0.

(** Checks on a concrete mapping. *)
Definition involutionb (mapping : list Z) : bool :=
  forallb (fun i => bool_decide (at_index mapping (at_index mapping i) = i))
    (seqZ 0 (Z.of_nat (length mapping))).

Definition fixpoint_freeb (mapping : list Z) : bool :=
  forallb (fun i => negb (bool_decide (at_index mapping i = i)))
    (seqZ 0 (Z.of_nat (length mapping))).

(** The tape of zeros: every [randint(a, b)] yields [a], every [shuffle]
    leaves the sequence as it is. *)
Definition tape_zero : Random := mkRandom (fun _ => 0%nat) 0.

(** The tape of ones: every [shuffle] picks the second remaining element
    while there is one. *)
Definition tape_one : Random := mkRandom (fun _ => 1%nat) 0.

(** The tape of 26s: [randint(0, 26)] yields 26. *)
Definition tape_top : Random := mkRandom (fun _ => 26%nat) 0.

(** The plugboard [ab]: [a] and [b] swapped. *)
Definition plugboard_ab : Plugboard := mkPlugboard ([1; 0] ++ seqZ 2 24) "ab".

(** The machine that [Enigma()] builds from the tape of zeros: identity
    discs and reflector, every notch and ring offset 0, plugboard [ab]. *)
Definition rotor_zero : Rotor := mkRotor disc_identity (mkAlphabetRing 0) 0.

Definition machine_zero : Enigma :=
  mkEnigma
    (mkRotorAssembly (mkReflector (seqZ 0 26))
       (PawlAndRatchetMechanism_init [rotor_zero; rotor_zero; rotor_zero]))
    plugboard_ab ∅.

(** A machine with a proper reflector, the pairing (0 1)(2 3)...(24 25):
    three discs that map [x] to [x + 1], ring offsets 0, notches 5,
    plugboard [ab]. *)
Definition reflector_pairs : Reflector :=
  mkReflector (flat_map (fun k => [2 * k + 1; 2 * k]) (seqZ 0 13)).

Definition rotor_shift : Rotor :=
  mkRotor (mkRotorDisc (seqZ 1 25 ++ [0])) (mkAlphabetRing 5) 0.

Definition machine_shift : Enigma :=
  mkEnigma
    (mkRotorAssembly reflector_pairs
       (PawlAndRatchetMechanism_init [rotor_shift; rotor_shift; rotor_shift]))
    plugboard_ab ∅.

Ltac solve_wf_mapping :=
  split; [reflexivity | repeat constructor; lia].

(** How many of the calls [Enigma.get(i)], made one after the other on the
    same machine for the inputs in turn, raise. *)
Fixpoint raising_keystrokes (A : Z) (inputs : list Z) (e : Enigma) : nat :=
  match inputs with
  | [] => 0
  | i :: rest =>
      match Enigma_get A i e with
      | (Ok _, e') => raising_keystrokes A rest e'
      | (Raise _, e') => S (raising_keystrokes A rest e')
      end
  end.

(** Decides a closed decidable proposition by evaluation. *)
Ltac decide_by_computation :=
  match goal with |- ?G => apply (bool_decide_unpack G); vm_compute; exact I end.

(** A configuration saved by an assembly of one rotor. *)
Definition assembly_one : RotorAssembly :=
  mkRotorAssembly (mkReflector (seqZ 0 26))
    (PawlAndRatchetMechanism_init [rotor_identity]).

Definition config_one : ConfigParser := snd (RotorAssembly_saveCfg assembly_one ∅).

(** A configuration whose plugboard settings are the pair [bc]. *)
Definition config_bc : ConfigParser :=
  snd (Plugboard_saveCfg (mkPlugboard [] "bc") "Plugboard" ∅).

(** * Properties *)

(** ** Lists, indexing and rotation *)

Lemma getitem_lookup {X} (l : list X) (i : Z) (x : X) :
  0 <= i -> l !! Z.to_nat i = Some x -> getitem l i = Ok x.
Proof.
  intros Hi Hx. unfold getitem.
  pose proof (lookup_lt_Some _ _ _ Hx) as Hlt.
  destruct (decide (i < 0)); [lia|].
  destruct (decide (0 <= i < Z.of_nat (length l))); [|lia].
  by rewrite Hx.
Qed.

Lemma getitem_Ok_nonneg {X} (l : list X) (i : Z) (x : X) :
  0 <= i -> getitem l i = Ok x -> l !! Z.to_nat i = Some x.
Proof.
  intros Hi. unfold getitem.
  destruct (decide (i < 0)); [lia|].
  destruct (decide (0 <= i < Z.of_nat (length l))); [|done].
  destruct (l !! Z.to_nat i); [congruence|done].
Qed.

Lemma getitem_in_range {X} (l : list X) (i : Z) :
  0 <= i < Z.of_nat (length l) ->
  exists x, l !! Z.to_nat i = Some x /\ getitem l i = Ok x.
Proof.
  intros Hi.
  destruct (lookup_lt_is_Some_2 l (Z.to_nat i)) as [x Hx]; [lia|].
  exists x. split; [done|]. apply getitem_lookup; [lia|done].
Qed.

Lemma getitem_high {X} (l : list X) (i : Z) :
  Z.of_nat (length l) <= i -> getitem l i = Raise IndexError.
Proof.
  intros Hi. unfold getitem.
  destruct (decide (i < 0)); [lia|].
  destruct (decide (0 <= i < Z.of_nat (length l))); [lia|done].
Qed.

Lemma getitem_low {X} (l : list X) (i : Z) :
  i < - Z.of_nat (length l) -> getitem l i = Raise IndexError.
Proof.
  intros Hi. unfold getitem.
  destruct (decide (i < 0)); [|lia].
  destruct (decide (0 <= i + Z.of_nat (length l) < Z.of_nat (length l))); [lia|done].
Qed.

Lemma getitem_negative {X} (l : list X) (i : Z) :
  - Z.of_nat (length l) <= i < 0 -> getitem l i = getitem l (i + Z.of_nat (length l)).
Proof.
  intros Hi. unfold getitem.
  destruct (decide (i < 0)); [|lia].
  destruct (decide (i + Z.of_nat (length l) < 0)); [lia|done].
Qed.

Lemma setitem_in_range {X} (l : list X) (i : Z) (v : X) :
  0 <= i < Z.of_nat (length l) -> setitem l i v = Ok (<[Z.to_nat i := v]> l).
Proof.
  intros Hi. unfold setitem.
  destruct (decide (i < 0)); [lia|].
  destruct (decide (0 <= i < Z.of_nat (length l))); [done|lia].
Qed.

Lemma setitem_high {X} (l : list X) (i : Z) (v : X) :
  Z.of_nat (length l) <= i -> setitem l i v = Raise IndexError.
Proof.
  intros Hi. unfold setitem.
  destruct (decide (i < 0)); [lia|].
  destruct (decide (0 <= i < Z.of_nat (length l))); [lia|done].
Qed.

Lemma deque_rotate1_snoc {X} (init : list X) (x : X) :
  deque_rotate1 (init ++ [x]) = x :: init.
Proof.
  unfold deque_rotate1. rewrite last_snoc, length_app. simpl.
  replace (length init + 1 - 1)%nat with (length init) by lia.
  by rewrite take_app_length.
Qed.

Lemma deque_rotate1_length {X} (d : list X) :
  length (deque_rotate1 d) = length d.
Proof.
  destruct (last d) as [x|] eqn:Hlast.
  - apply last_Some in Hlast as [init ->].
    rewrite deque_rotate1_snoc, length_app. simpl. lia.
  - unfold deque_rotate1. by rewrite Hlast.
Qed.

(** After [rotate(1)] the element at index [i] is the one that stood at
    index [i - 1], cyclically. *)
Lemma deque_rotate1_lookup {X} (d : list X) (i : nat) :
  (i < length d)%nat ->
  deque_rotate1 d !! i = d !! ((i + length d - 1) mod length d)%nat.
Proof.
  intros Hi.
  destruct (last d) as [x|] eqn:Hlast.
  - apply last_Some in Hlast as [init ->].
    rewrite deque_rotate1_snoc. rewrite length_app in *. simpl in *.
    destruct i as [|k].
    + replace (0 + (length init + 1) - 1)%nat with (length init) by lia.
      rewrite Nat.mod_small by lia.
      by rewrite lookup_app_r, Nat.sub_diag.
    + replace (S k + (length init + 1) - 1)%nat
        with (k + 1 * (length init + 1))%nat by lia.
      rewrite Nat.Div0.mod_add, Nat.mod_small by lia.
      simpl. by rewrite lookup_app_l by lia.
  - apply last_None in Hlast. subst d. simpl in Hi. lia.
Qed.

(** ** Randomness *)

Lemma always_ret {S X} (x : X) (P : X -> Prop) : P x -> always (@ret S X x) P.
Proof. intros HP s. by exists x, s. Qed.

Lemma always_bind {S X Y} (m : M S X) (k : X -> M S Y) (P : X -> Prop)
    (Q : Y -> Prop) :
  always m P -> (forall x, P x -> always (k x) Q) -> always (bind m k) Q.
Proof.
  intros Hm Hk s. destruct (Hm s) as (x & s' & Hrun & HP).
  destruct (Hk x HP s') as (y & s'' & Hrun' & HQ).
  exists y, s''. unfold bind. by rewrite Hrun.
Qed.

Lemma always_weaken {S X} (m : M S X) (P Q : X -> Prop) :
  always m P -> (forall x, P x -> Q x) -> always m Q.
Proof.
  intros Hm HPQ s. destruct (Hm s) as (x & s' & Hrun & HP).
  exists x, s'. auto.
Qed.

Lemma always_draw : always draw (fun _ => True).
Proof. intros g. by eexists _, _. Qed.

Lemma randint_range (a b : Z) :
  a <= b -> always (randint a b) (fun v => a <= v <= b).
Proof.
  intros Hab. unfold randint. destruct (decide (a <= b)); [|lia].
  apply always_bind with (P := fun _ => True); [apply always_draw|].
  intros d _. apply always_ret.
  pose proof (Z.mod_pos_bound (Z.of_nat d) (b - a + 1) ltac:(lia)). lia.
Qed.

Lemma shuffle_pick_Permutation {X} (n : nat) (l : list X) :
  n = length l -> always (shuffle_pick n l) (fun l' => l' ≡ₚ l).
Proof.
  revert l. induction n as [|n IH]; intros l Hn; simpl.
  - apply always_ret. destruct l; [done|discriminate].
  - apply always_bind with (P := fun _ => True); [apply always_draw|].
    intros d _.
    destruct (lookup_lt_is_Some_2 l (d mod length l)%nat) as [x Hx].
    { apply Nat.mod_upper_bound. lia. }
    rewrite Hx.
    apply always_bind with (P := fun rest => rest ≡ₚ delete (d mod length l)%nat l).
    + apply IH. rewrite length_delete by eauto. lia.
    + intros rest Hrest. apply always_ret.
      rewrite Hrest. symmetry. by apply delete_Permutation.
Qed.

Lemma shuffle_Permutation {X} (l : list X) :
  always (shuffle l) (fun l' => l' ≡ₚ l).
Proof. by apply shuffle_pick_Permutation. Qed.

(** ** The substitution primitives *)

Section Primitives.

Variable A : Z.

Lemma in_universe (i : Z) : i ∈ ALPHABET_UNIVERSE A <-> 0 <= i < A.
Proof. unfold ALPHABET_UNIVERSE. rewrite elem_of_seqZ. lia. Qed.

Lemma RotorDisc_get_in_range (d : RotorDisc) (i : Z) :
  Z.of_nat (length (RotorDisc__mapping d)) = A -> 0 <= i < A ->
  exists v, RotorDisc__mapping d !! Z.to_nat i = Some v /\ RotorDisc_get A d i = Ok v.
Proof.
  intros Hlen Hi. unfold RotorDisc_get.
  destruct (decide (i ∈ ALPHABET_UNIVERSE A)) as [_|Hn].
  - apply getitem_in_range. lia.
  - exfalso. apply Hn, in_universe, Hi.
Qed.

(** C6, as the code has it: [rotate] is a cyclic shift to the right by one
    position.  The last element of the sequence moves to the front, and
    [get(i)] returns the element that stood at index [(i - 1) mod A]. *)
Theorem RotorDisc_rotate_shifts_right (d : RotorDisc) :
  Z.of_nat (length (RotorDisc__mapping d)) = A ->
  (forall init x, RotorDisc__mapping d = init ++ [x] ->
                  RotorDisc__mapping (RotorDisc_rotate d) = x :: init)
  /\ (forall i, 0 <= i < A ->
       exists v, RotorDisc_get A d ((i - 1) mod A) = Ok v
                 /\ RotorDisc_get A (RotorDisc_rotate d) i = Ok v).
Proof.
  intros Hlen. split.
  - intros init x Hd. unfold RotorDisc_rotate. simpl.
    by rewrite Hd, deque_rotate1_snoc.
  - intros i Hi.
    assert (0 <= (i - 1) mod A < A) as Hj by (apply Z.mod_pos_bound; lia).
    destruct (RotorDisc_get_in_range d ((i - 1) mod A) Hlen Hj) as (v & Hv & Hget).
    exists v. split; [done|].
    destruct (RotorDisc_get_in_range (RotorDisc_rotate d) i) as (w & Hw & Hget');
      [simpl; rewrite deque_rotate1_length; lia | done |].
    rewrite Hget'. f_equal.
    simpl in Hw. rewrite deque_rotate1_lookup in Hw by lia.
    enough (Z.to_nat ((i - 1) mod A)
            = ((Z.to_nat i + length (RotorDisc__mapping d) - 1)
                 mod length (RotorDisc__mapping d))%nat) as Heq
      by (rewrite Heq in Hv; congruence).
    destruct (decide (i = 0)) as [->|Hne].
    + replace ((0 - 1) mod A) with (A - 1)
        by (apply Z.mod_unique with (-1); lia).
      rewrite Nat.mod_small by lia. lia.
    + rewrite Z.mod_small by lia.
      replace (Z.to_nat i + length (RotorDisc__mapping d) - 1)%nat
        with (Z.to_nat (i - 1) + 1 * length (RotorDisc__mapping d))%nat by lia.
      rewrite Nat.Div0.mod_add, Nat.mod_small by lia. done.
Qed.

Lemma Reflector_get_in_range (r : Reflector) (i : Z) :
  Z.of_nat (length (Reflector__mapping r)) = A -> 0 <= i < A ->
  exists v, Reflector__mapping r !! Z.to_nat i = Some v /\ Reflector_get A r i = Ok v.
Proof.
  intros Hlen Hi. unfold Reflector_get.
  destruct (decide (i ∈ ALPHABET_UNIVERSE A)) as [_|Hn].
  - apply getitem_in_range. lia.
  - exfalso. apply Hn, in_universe, Hi.
Qed.

(** [Rotor.get] reduces its argument modulo [A] first: it accepts every
    integer. *)
Lemma Rotor_get_total (r : Rotor) (i : Z) :
  0 < A -> Z.of_nat (length (RotorDisc__mapping (_rotor_disc r))) = A ->
  exists v, RotorDisc__mapping (_rotor_disc r)
              !! Z.to_nat ((i + Rotor__ringstellung r) mod A) = Some v
            /\ Rotor_get A r i = Ok v.
Proof.
  intros HA Hlen. unfold Rotor_get, py_mod.
  destruct (decide (A = 0)); [lia|]. simpl.
  apply RotorDisc_get_in_range; [done|]. apply Z.mod_pos_bound. lia.
Qed.

Lemma Rotor_get_stage (r : Rotor) (i : Z) :
  0 < A -> Z.of_nat (length (RotorDisc__mapping (_rotor_disc r))) = A ->
  Rotor_get A r i = Ok (rotor_stage A r i).
Proof.
  intros HA Hlen. destruct (Rotor_get_total r i HA Hlen) as (v & Hv & ->).
  unfold rotor_stage, at_index. by rewrite Hv.
Qed.

Lemma Plugboard_get_in_range (p : Plugboard) (i : Z) :
  Z.of_nat (length (Plugboard__mapping p)) = A -> 0 <= i < A ->
  Plugboard_get p i = Ok (at_index (Plugboard__mapping p) i).
Proof.
  intros Hlen Hi. unfold Plugboard_get, at_index.
  destruct (getitem_in_range (Plugboard__mapping p) i) as (v & Hv & ->); [lia|].
  by rewrite Hv.
Qed.

Lemma at_index_wf (mapping : list Z) (i : Z) :
  wf_mapping A mapping -> 0 <= i < A -> 0 <= at_index mapping i < A.
Proof.
  intros [Hlen Hall] Hi. unfold at_index.
  destruct (lookup_lt_is_Some_2 mapping (Z.to_nat i)) as [v Hv]; [lia|].
  rewrite Hv. simpl. by apply (Forall_lookup_1 _ _ _ _ Hall Hv).
Qed.

Lemma rotor_stage_wf (r : Rotor) (i : Z) :
  0 < A -> wf_mapping A (RotorDisc__mapping (_rotor_disc r)) ->
  0 <= rotor_stage A r i < A.
Proof.
  intros HA Hwf. apply at_index_wf; [done|]. apply Z.mod_pos_bound. lia.
Qed.

(** C3, as the code has it.  For an input outside [[0, A)]: [RotorDisc.get]
    and [Reflector.get] raise at once; [Rotor.get] does not raise, it looks
    up [(i + ringstellung) mod A]; [Plugboard.get] and [Enigma.get] raise
    for an input at or above [A] or below [-A], and [Enigma.get] then leaves
    the machine as it was. *)
Theorem invalid_input (i : Z) :
  ~ 0 <= i < A ->
  (forall d, RotorDisc_get A d i = Raise AssertionError)
  /\ (forall r, Reflector_get A r i = Raise AssertionError)
  /\ (forall r, 0 < A ->
                Z.of_nat (length (RotorDisc__mapping (_rotor_disc r))) = A ->
                Rotor_get A r i = Ok (rotor_stage A r i))
  /\ (forall p, Z.of_nat (length (Plugboard__mapping p)) = A ->
                A <= i \/ i < - A ->
                Plugboard_get p i = Raise IndexError)
  /\ (forall e, Z.of_nat (length (Plugboard__mapping (_plugboard e))) = A ->
                A <= i \/ i < - A ->
                Enigma_get A i e = (Raise IndexError, e)).
Proof.
  intros Hi.
  assert (forall p, Z.of_nat (length (Plugboard__mapping p)) = A ->
                    A <= i \/ i < - A -> Plugboard_get p i = Raise IndexError) as Hplug.
  { intros p Hlen [Hhigh|Hlow]; unfold Plugboard_get.
    - apply getitem_high. lia.
    - apply getitem_low. lia. }
  repeat split.
  - intros d. unfold RotorDisc_get.
    destruct (decide (i ∈ ALPHABET_UNIVERSE A)) as [Hin|]; [|done].
    by apply in_universe in Hin.
  - intros r. unfold Reflector_get.
    destruct (decide (i ∈ ALPHABET_UNIVERSE A)) as [Hin|]; [|done].
    by apply in_universe in Hin.
  - intros r HA Hlen. by apply Rotor_get_stage.
  - exact Hplug.
  - intros e Hlen Hout. unfold Enigma_get, bind, read.
    by rewrite (Hplug _ Hlen Hout).
Qed.

(** A permutation of the alphabet, read through a range-checked lookup, is
    a bijection of [[0, A)]. *)
Lemma permutation_lookup_bijection (mapping : list Z) :
  mapping ≡ₚ ALPHABET_UNIVERSE A ->
  (forall i, 0 <= i < A ->
             exists j, getitem mapping i = Ok j /\ 0 <= j < A)
  /\ (forall i i' j, 0 <= i < A -> 0 <= i' < A ->
                     getitem mapping i = Ok j -> getitem mapping i' = Ok j -> i = i')
  /\ (forall j, 0 <= j < A -> exists i, 0 <= i < A /\ getitem mapping i = Ok j).
Proof.
  intros Hperm.
  assert (length mapping = Z.to_nat A) as Hlen
    by (rewrite Hperm; apply length_seqZ).
  assert (NoDup mapping) as Hnodup
    by (rewrite Hperm; apply NoDup_seqZ).
  repeat split.
  - intros i Hi. destruct (getitem_in_range mapping i) as (j & Hj & ->); [lia|].
    exists j. split; [done|]. apply in_universe. rewrite <- Hperm.
    by eapply list_elem_of_lookup_2.
  - intros i i' j Hi Hi' Hj Hj'.
    apply getitem_Ok_nonneg in Hj; [|lia]. apply getitem_Ok_nonneg in Hj'; [|lia].
    pose proof (NoDup_lookup _ _ _ _ Hnodup Hj Hj'). lia.
  - intros j Hj. apply in_universe in Hj. rewrite <- Hperm in Hj.
    apply list_elem_of_lookup in Hj as [idx Hidx].
    pose proof (lookup_lt_Some _ _ _ Hidx).
    exists (Z.of_nat idx). split; [lia|].
    apply getitem_lookup; [lia|]. by rewrite Nat2Z.id.
Qed.

(** C2, as the code has it: a fresh reflector is a shuffle of the alphabet,
    so [get] is a bijection of [[0, A)]: it maps indices to indices, is
    one-to-one and reaches every index.  Nothing makes it an involution or
    keeps it free of fixed points. *)
Theorem Reflector_init_bijection (g : Random) :
  exists r g',
    Reflector_init A g = (Ok r, g')
    /\ Reflector__mapping r ≡ₚ ALPHABET_UNIVERSE A
    /\ (forall i, 0 <= i < A -> exists j, Reflector_get A r i = Ok j /\ 0 <= j < A)
    /\ (forall i i' j, Reflector_get A r i = Ok j -> Reflector_get A r i' = Ok j ->
                       i = i')
    /\ (forall j, 0 <= j < A -> exists i, 0 <= i < A /\ Reflector_get A r i = Ok j).
Proof.
  destruct (shuffle_Permutation (ALPHABET_UNIVERSE A) g) as (m & g' & Hrun & Hperm).
  exists (mkReflector m), g'. unfold Reflector_init, bind. rewrite Hrun.
  split; [done|]. split; [done|].
  destruct (permutation_lookup_bijection m Hperm) as (Hinto & Hinj & Hsurj).
  assert (forall i, 0 <= i < A -> Reflector_get A (mkReflector m) i = getitem m i)
    as Hget.
  { intros i Hi. unfold Reflector_get. simpl.
    destruct (decide (i ∈ ALPHABET_UNIVERSE A)) as [|Hn]; [done|].
    exfalso. by apply Hn, in_universe. }
  assert (forall i j, Reflector_get A (mkReflector m) i = Ok j -> 0 <= i < A)
    as Hdom.
  { intros i j. unfold Reflector_get.
    destruct (decide (i ∈ ALPHABET_UNIVERSE A)) as [Hin|]; [|done].
    intros _. by apply in_universe. }
  repeat split.
  - intros i Hi. rewrite Hget by done. by apply Hinto.
  - intros i i' j Hj Hj'.
    pose proof (Hdom _ _ Hj). pose proof (Hdom _ _ Hj').
    rewrite Hget in Hj, Hj' by done. by eapply Hinj.
  - intros j Hj. destruct (Hsurj j Hj) as (i & Hi & Hij).
    exists i. split; [done|]. by rewrite Hget.
Qed.

End Primitives.

Lemma invalid_input_witness :
  RotorDisc_get 26 disc_identity 26 = Raise AssertionError.
Proof.
  destruct (invalid_input 26 26 ltac:(lia)) as [H _]. apply H.
Defined.

(** C3, as stated, fails: 26 is no index of the alphabet [a..z], and
    [Rotor.get(26)] returns a value. *)
Lemma Rotor_get_accepts_invalid_input :
  ~ 0 <= 26 < 26 /\ Rotor_get 26 rotor_identity 26 = Ok 0.
Proof. split; [lia|]. vm_compute. reflexivity. Qed.

(** [Plugboard.get] has no range check of its own: the index -1 reads the
    last entry, and [Enigma.get(-1)] returns a value and steps rotor 0. *)
Remark Plugboard_get_negative_index :
  Plugboard_get plugboard_ab (-1) = Ok 25
  /\ fst (Enigma_get 26 (-1) machine_shift) = Ok 6
  /\ _rotation_count (_prm (_rotor_asm (snd (Enigma_get 26 (-1) machine_shift))))
     = [1; 0].
Proof. vm_compute. repeat split. Qed.

Lemma RotorDisc_rotate_shifts_right_witness :
  RotorDisc_get 26 (RotorDisc_rotate disc_identity) 0 = Ok 25.
Proof.
  destruct (RotorDisc_rotate_shifts_right 26 disc_identity eq_refl) as [_ H].
  destruct (H 0 ltac:(lia)) as (v & Hv & ->).
  vm_compute in Hv. exact (eq_sym Hv).
Defined.

(** C6, as stated, fails: after one [rotate] of the identity disc, [get(0)]
    is not the element that stood at index 1, and the element that stood at
    index 0 is not at the end. *)
Lemma RotorDisc_rotate_not_left_shift :
  RotorDisc_get 26 (RotorDisc_rotate disc_identity) 0
    <> RotorDisc_get 26 disc_identity ((0 + 1) mod 26)
  /\ RotorDisc_get 26 (RotorDisc_rotate disc_identity) 25
    <> RotorDisc_get 26 disc_identity 0.
Proof. split; vm_compute; discriminate. Qed.

(** ** The pawl-and-ratchet mechanism *)

Section Stepping.

Variable A : Z.
Hypothesis A_nonzero : A <> 0.

Lemma pending_loop_flags (prm : PawlAndRatchetMechanism) (j k : nat) :
  (k + j)%nat = length (_rotation_count prm) ->
  (length (_rotation_count prm) < length (_rotors prm))%nat ->
  pending_loop prm (seqZ (1 + Z.of_nat k) (Z.of_nat j))
    (true :: take k (zip_with at_notch (_rotation_count prm) (_rotors prm))
          ++ replicate j false)
  = Ok (turnover_flags prm).
Proof.
  set (F := zip_with at_notch (_rotation_count prm) (_rotors prm)).
  intros Hlen Hle.
  assert (length F = length (_rotation_count prm)) as HF
    by (apply length_zip_with_l; lia).
  revert k Hlen. induction j as [|j IH]; intros k Hlen.
  - simpl. unfold turnover_flags. fold F.
    by rewrite app_nil_r, take_ge by lia.
  - rewrite seqZ_cons by lia. simpl.
    replace (1 + Z.of_nat k - 1) with (Z.of_nat k) by lia.
    destruct (lookup_lt_is_Some_2 (_rotation_count prm) k) as [c Hc]; [lia|].
    destruct (lookup_lt_is_Some_2 (_rotors prm) k) as [r Hr]; [lia|].
    rewrite (getitem_lookup _ _ c), (getitem_lookup _ _ r)
      by (rewrite ?Nat2Z.id; done || lia).
    simpl.
    assert (F !! k = Some (at_notch c r)) as HFk.
    { unfold F. rewrite lookup_zip_with, Hc. simpl. by rewrite Hr. }
    assert (take (S k) F = take k F ++ [at_notch c r]) as Htake
      by (by apply take_S_r).
    replace (Z.succ (1 + Z.of_nat k)) with (1 + Z.of_nat (S k)) by lia.
    replace (Z.pred (Z.of_nat (S j))) with (Z.of_nat j) by lia.
    specialize (IH (S k) ltac:(lia)). rewrite Htake, <- app_assoc in IH.
    unfold at_notch in IH at 1. simpl in IH.
    destruct (decide (c = notch (alphabet_ring r))) as [Heq|Hne].
    + rewrite setitem_in_range
        by (simpl; rewrite length_app, length_take; simpl;
            rewrite length_replicate; lia).
      simpl. replace (Z.to_nat (1 + Z.of_nat k)) with (S k) by lia. simpl.
      rewrite insert_app_r_alt by (rewrite length_take; lia).
      rewrite length_take. replace (k - k `min` length F)%nat with 0%nat by lia.
      simpl. rewrite bool_decide_eq_true_2 in IH by done. exact IH.
    + simpl. rewrite bool_decide_eq_false_2 in IH by done. exact IH.
Qed.

Lemma pending_rotations_flags (prm : PawlAndRatchetMechanism) :
  wf_prm prm -> pending_rotations prm = Ok (turnover_flags prm).
Proof.
  intros [Hn Hlen]. unfold pending_rotations.
  rewrite setitem_in_range by (rewrite length_replicate; lia).
  rewrite <- Hlen. simpl.
  replace (_n prm - 1) with (Z.of_nat (length (_rotation_count prm))) by lia.
  apply (pending_loop_flags prm (length (_rotation_count prm)) 0); lia.
Qed.

Lemma rotate_rotor_counted (prm : PawlAndRatchetMechanism) (idx : nat) (c : Z) (r : Rotor) :
  _rotation_count prm !! idx = Some c -> _rotors prm !! idx = Some r ->
  PawlAndRatchetMechanism__rotate_rotor A (Z.of_nat idx) prm
  = (Ok tt,
     mkPawlAndRatchetMechanism (<[idx := Rotor_rotate r]> (_rotors prm)) (_n prm)
       (<[idx := (c + 1) mod A]> (_rotation_count prm))).
Proof.
  intros Hc Hr.
  pose proof (lookup_lt_Some _ _ _ Hc). pose proof (lookup_lt_Some _ _ _ Hr).
  unfold PawlAndRatchetMechanism__rotate_rotor, bind, read, lift, modify, py_mod.
  rewrite (getitem_lookup _ _ c) by (rewrite ?Nat2Z.id; done || lia).
  destruct (decide (A = 0)); [done|].
  rewrite setitem_in_range by lia. simpl.
  rewrite (getitem_lookup _ _ r) by (rewrite ?Nat2Z.id; done || lia).
  rewrite setitem_in_range by lia. simpl.
  by rewrite Nat2Z.id.
Qed.

Lemma rotate_rotor_uncounted (prm : PawlAndRatchetMechanism) (idx : nat) :
  (length (_rotation_count prm) <= idx)%nat ->
  PawlAndRatchetMechanism__rotate_rotor A (Z.of_nat idx) prm = (Raise IndexError, prm).
Proof.
  intros Hidx.
  unfold PawlAndRatchetMechanism__rotate_rotor, bind, read.
  by rewrite getitem_high by lia.
Qed.

Lemma perform_rotations_spec (flags : list bool) (k : nat)
    (prm : PawlAndRatchetMechanism) :
  (length flags + k)%nat = length (_rotors prm) ->
  S (length (_rotation_count prm)) = length (_rotors prm) ->
  perform_rotations A (Z.of_nat k) flags prm
  = (if default false (last flags) then Raise IndexError else Ok tt,
     mkPawlAndRatchetMechanism
       (take k (_rotors prm)
          ++ stepped_rotors (take (length (_rotation_count prm) - k) flags)
               (drop k (_rotors prm)))
       (_n prm)
       (take k (_rotation_count prm)
          ++ stepped_counts A flags (drop k (_rotation_count prm)))).
Proof.
  revert k prm. induction flags as [|f fs IH]; intros k [R n C] Hk HC; simpl in *.
  - rewrite take_ge, drop_ge by lia. rewrite take_nil, take_drop. simpl.
    by rewrite app_nil_r.
  - destruct (lookup_lt_is_Some_2 R k) as [r Hr]; [lia|].
    replace (Z.of_nat k + 1) with (Z.of_nat (S k)) by lia.
    destruct (decide (k < length C)%nat) as [Hlt|Hge].
    + destruct (lookup_lt_is_Some_2 C k) as [c Hc]; [lia|].
      assert (last (f :: fs) = last fs) as ->
        by (destruct fs; [simpl in *; lia|done]).
      replace (length C - k)%nat with (S (length C - S k)) by lia. simpl.
      rewrite (drop_S R r k Hr), (drop_S C c k Hc). simpl.
      destruct f.
      * unfold bind at 1.
        rewrite (rotate_rotor_counted _ k c r) by done. simpl.
        rewrite IH by (simpl; rewrite ?length_insert; lia). simpl.
        rewrite !length_insert.
        rewrite (take_S_r _ _ (Rotor_rotate r))
          by (apply list_lookup_insert_eq; lia).
        rewrite (take_S_r _ _ ((c + 1) mod A))
          by (apply list_lookup_insert_eq; lia).
        rewrite !take_insert_ge, !drop_insert_lt by lia.
        by rewrite <- !app_assoc.
      * unfold bind at 1, ret at 1.
        rewrite IH by (simpl; lia). simpl.
        rewrite (take_S_r _ _ r), (take_S_r _ _ c) by done.
        by rewrite <- !app_assoc.
    + assert (fs = []) as -> by (destruct fs; [done|simpl in *; lia]).
      replace (length C - k)%nat with 0%nat by lia. simpl.
      rewrite (drop_ge C), (take_ge C) by lia. rewrite take_drop, app_nil_r.
      destruct f.
      * unfold bind at 1. by rewrite rotate_rotor_uncounted by (simpl; lia).
      * done.
Qed.

(** One keystroke of the mechanism, on the counters as they stand before
    it: the flagged rotors that have a counter are rotated and counted; the
    last rotor has no counter, and a keystroke that flags it raises
    [IndexError] before rotating it. *)
Lemma PawlAndRatchetMechanism_rotate_spec (prm : PawlAndRatchetMechanism) :
  wf_prm prm ->
  PawlAndRatchetMechanism_rotate A prm
  = (if default false (last (turnover_flags prm)) then Raise IndexError else Ok tt,
     mkPawlAndRatchetMechanism
       (stepped_rotors
          (take (length (_rotation_count prm)) (turnover_flags prm)) (_rotors prm))
       (_n prm)
       (stepped_counts A (turnover_flags prm) (_rotation_count prm))).
Proof.
  intros Hwf. pose proof Hwf as [Hn Hlen].
  unfold PawlAndRatchetMechanism_rotate, bind, read.
  rewrite pending_rotations_flags by done.
  assert (length (turnover_flags prm) = length (_rotors prm)) as Hflags.
  { unfold turnover_flags. simpl. rewrite length_zip_with_l; lia. }
  rewrite (perform_rotations_spec _ 0) by lia.
  by rewrite !take_0, !drop_0, Nat.sub_0_r.
Qed.

End Stepping.

(** ** The signal path *)

Section SignalPath.

Variable A : Z.

Lemma apply_through (objs : list Substitution) (value : Z) (idx : nat) :
  (idx <= length objs)%nat ->
  apply A objs value idx = through A (drop idx objs) value.
Proof.
  funelim (apply A objs value idx); intros Hle.
  - by rewrite drop_ge by lia.
  - match goal with
    | Hnone : objs !! idx = None |- _ => pose proof (lookup_ge_None_1 _ _ Hnone)
    end.
    lia.
  - match goal with
    | Hobj : objs !! idx = Some _, Hget : Substitution_get _ _ _ = _,
      IH : _ -> apply _ _ _ _ = _ |- _ =>
        rewrite (drop_S _ _ _ Hobj); simpl; rewrite Hget; simpl;
        pose proof (lookup_lt_Some _ _ _ Hobj); rewrite IH by lia
    end.
    by replace (idx + 1)%nat with (S idx) by lia.
  - match goal with
    | Hobj : objs !! idx = Some _, Hget : Substitution_get _ _ _ = _ |- _ =>
        rewrite (drop_S _ _ _ Hobj); simpl; by rewrite Hget
    end.
Qed.

Lemma through_app (l1 l2 : list Substitution) (value : Z) :
  through A (l1 ++ l2) value
  = (val v <- through A l1 value ;; through A l2 v).
Proof.
  revert value. induction l1 as [|obj l1 IH]; intros value; simpl; [done|].
  destruct (Substitution_get A obj value); simpl; [apply IH|done].
Qed.

Lemma through_rotors (rotors : list Rotor) (value : Z) :
  0 < A ->
  Forall (fun r => wf_mapping A (RotorDisc__mapping (_rotor_disc r))) rotors ->
  through A (OfRotor <$> rotors) value
  = Ok (foldl (fun x r => rotor_stage A r x) value rotors).
Proof.
  intros HA Hwf. revert value.
  induction Hwf as [|r rotors [Hlen _] _ IH]; intros value; simpl; [done|].
  rewrite Rotor_get_stage by done. simpl. apply IH.
Qed.

Lemma foldl_rotor_stage_wf (rotors : list Rotor) (value : Z) :
  0 < A -> 0 <= value < A ->
  Forall (fun r => wf_mapping A (RotorDisc__mapping (_rotor_disc r))) rotors ->
  0 <= foldl (fun x r => rotor_stage A r x) value rotors < A.
Proof.
  intros HA Hv Hwf. revert value Hv.
  induction Hwf as [|r rotors Hr _ IH]; intros value Hv; simpl; [done|].
  apply IH. by apply rotor_stage_wf.
Qed.

Lemma RotorAssembly_apply_chain (asm : RotorAssembly) (i : Z) :
  0 < A ->
  wf_mapping A (Reflector__mapping (_reflector asm)) ->
  Forall (fun r => wf_mapping A (RotorDisc__mapping (_rotor_disc r)))
    (RotorAssembly_rotors asm) ->
  0 <= i < A ->
  apply A (obj_list asm) i 0 = Ok (rotor_chain A asm i)
  /\ 0 <= rotor_chain A asm i < A.
Proof.
  intros HA Hrefl Hrotors Hi.
  assert (Forall (fun r => wf_mapping A (RotorDisc__mapping (_rotor_disc r)))
            (reverse (RotorAssembly_rotors asm))) as Hrev
    by (by apply Forall_reverse).
  pose proof (foldl_rotor_stage_wf _ i HA Hi Hrotors) as Hfwd.
  pose proof (at_index_wf A _ _ Hrefl Hfwd) as Hmid.
  split.
  - rewrite apply_through by lia. rewrite drop_0. unfold obj_list.
    rewrite through_app, through_rotors by done. simpl.
    destruct (Reflector_get_in_range A (_reflector asm) _ (proj1 Hrefl) Hfwd)
      as (v & Hv & ->). simpl.
    rewrite through_rotors by done.
    unfold rotor_chain, at_index. by rewrite Hv.
  - unfold rotor_chain. by apply foldl_rotor_stage_wf.
Qed.

(** What [Enigma.get] does on a valid input.  The signal path of the
    specification, computed on the rotors as they stand before the call, is
    plugboard, rotors [0..N-1] with [disc.get((i + ringOffset) mod A)] at
    each stage, reflector, rotors [N-1..0], plugboard.  The mechanism is
    stepped once, after the rotor chain has produced its value, and the
    machine that the call leaves is the one that this step leaves.  The call
    returns the value of the signal path when the step does not raise, that
    is when the keystroke does not flag the last rotor; when the step raises
    the call raises with it. *)
Theorem Enigma_get_signal_path (e : Enigma) (i : Z) :
  0 < A -> wf_Enigma A e -> 0 <= i < A ->
  0 <= signal_path A e i < A
  /\ Enigma_get A i e
     = (match fst (PawlAndRatchetMechanism_rotate A (_prm (_rotor_asm e))) with
        | Ok _ => Ok (signal_path A e i)
        | Raise x => Raise x
        end,
        with_rotor_asm
          (with_prm (snd (PawlAndRatchetMechanism_rotate A (_prm (_rotor_asm e))))
             (_rotor_asm e)) e)
  /\ (wf_prm (_prm (_rotor_asm e)) ->
      default false (last (turnover_flags (_prm (_rotor_asm e)))) = false ->
      fst (Enigma_get A i e) = Ok (signal_path A e i)).
Proof.
  intros HA (Hplug & Hrefl & Hrotors) Hi.
  pose proof (at_index_wf A _ _ Hplug Hi) as Hi2.
  destruct (RotorAssembly_apply_chain (_rotor_asm e) _ HA Hrefl Hrotors Hi2)
    as [Happly Hi3].
  pose proof (at_index_wf A _ _ Hplug Hi3) as Hi4.
  split; [exact Hi4|].
  assert (Enigma_get A i e
          = (match fst (PawlAndRatchetMechanism_rotate A (_prm (_rotor_asm e))) with
             | Ok _ => Ok (signal_path A e i)
             | Raise x => Raise x
             end,
             with_rotor_asm
               (with_prm (snd (PawlAndRatchetMechanism_rotate A (_prm (_rotor_asm e))))
                  (_rotor_asm e)) e)) as Hget.
  { unfold Enigma_get, RotorAssembly_get, bind, read, zoom, ret.
    rewrite (Plugboard_get_in_range A _ _ (proj1 Hplug) Hi).
    rewrite Happly.
    destruct (PawlAndRatchetMechanism_rotate A (_prm (_rotor_asm e)))
      as [[[]|x] prm']; simpl; [|done].
    by rewrite (Plugboard_get_in_range A _ _ (proj1 Hplug) Hi3). }
  split; [exact Hget|].
  intros Hprm Hlast. rewrite Hget. simpl.
  rewrite PawlAndRatchetMechanism_rotate_spec by (done || lia).
  simpl. by rewrite Hlast.
Qed.

End SignalPath.

(** ** Concrete runs *)

Lemma machine_shift_wf : wf_Enigma 26 machine_shift.
Proof.
  unfold wf_Enigma. simpl. split; [solve_wf_mapping|]. split; [solve_wf_mapping|].
  repeat constructor; simpl; try reflexivity; lia.
Qed.

Lemma Enigma_get_signal_path_witness :
  fst (Enigma_get 26 2 machine_shift) = Ok (signal_path 26 machine_shift 2).
Proof.
  destruct (Enigma_get_signal_path 26 machine_shift 2 ltac:(lia) machine_shift_wf
              ltac:(lia)) as (_ & _ & H).
  apply H; [split; reflexivity | reflexivity].
Defined.

(** [machine_zero] is a machine the program can build: it is what
    [import enigma; Enigma()] yields on the tape of zeros. *)
Lemma machine_zero_fresh :
  fst ((do globals <- import_enigma 26 ;; Enigma_init 26 3 globals) tape_zero)
  = Ok machine_zero.
Proof. vm_compute. reflexivity. Qed.

(** C4 on the code: a keystroke that flags the last rotor.  On
    [machine_zero] all three rotors are flagged; rotors 0 and 1 rotate and
    are counted, the advance of rotor 2 raises [IndexError], and its disc is
    not rotated. *)
Theorem last_rotor_advance_raises :
  let prm := _prm (_rotor_asm machine_zero) in
  let after := snd (PawlAndRatchetMechanism_rotate 26 prm) in
  turnover_flags prm = [true; true; true]
  /\ fst (PawlAndRatchetMechanism_rotate 26 prm) = Raise IndexError
  /\ _rotors after
     = [Rotor_rotate rotor_zero; Rotor_rotate rotor_zero; rotor_zero]
  /\ _rotation_count after = [1; 1]
  /\ Rotor_rotate rotor_zero <> rotor_zero
  /\ fst (Enigma_get 26 0 machine_zero) = Raise IndexError.
Proof. vm_compute. repeat split; discriminate. Qed.

(** C5 on the code: a valid input on a keystroke that flags the last
    rotor.  [machine_zero] is the machine that [Enigma()] builds on the tape
    of zeros.  The signal path of index 0 through it is 0, but
    [Enigma.get(0)] raises [IndexError] and returns nothing, and so does
    [Enigma.get] on every other valid input: the step that follows the rotor
    chain raises before [RotorAssembly.get] returns its value.  On
    [machine_shift] 26 of the first 676 keystrokes raise. *)
Theorem signal_path_lost_when_step_raises :
  fst ((do globals <- import_enigma 26 ;; Enigma_init 26 3 globals) tape_zero)
  = Ok machine_zero
  /\ signal_path 26 machine_zero 0 = 0
  /\ fst (Enigma_get 26 0 machine_zero) = Raise IndexError
  /\ forallb (fun i => match fst (Enigma_get 26 i machine_zero) with
                       | Raise IndexError => true
                       | _ => false
                       end) (seqZ 0 26) = true
  /\ raising_keystrokes 26 (replicate 676 0) machine_shift = 26%nat.
Proof. vm_compute. repeat split. Qed.

(** C1 on the code: [machine_shift] has an involutive reflector without
    fixed points and an involutive plugboard; it encodes 2 to 7, and a
    machine in the same state encodes 7 to 14, not back to 2. *)
Theorem round_trip_fails :
  involutionb (Reflector__mapping (_reflector (_rotor_asm machine_shift))) = true
  /\ fixpoint_freeb (Reflector__mapping (_reflector (_rotor_asm machine_shift))) = true
  /\ involutionb (Plugboard__mapping (_plugboard machine_shift)) = true
  /\ fst (Enigma_get 26 2 machine_shift) = Ok 7
  /\ fst (Enigma_get 26 7 machine_shift) = Ok 14.
Proof. vm_compute. repeat split. Qed.

(** C2, as stated, fails: on the tape of zeros the fresh reflector is the
    identity, every index a fixed point; on the tape of ones it is the cycle
    [x -> x + 1], which is no involution. *)
Lemma Reflector_init_not_involution :
  fst (Reflector_init 26 tape_zero) = Ok (mkReflector (seqZ 0 26))
  /\ Reflector_get 26 (mkReflector (seqZ 0 26)) 0 = Ok 0
  /\ fst (Reflector_init 26 tape_one) = Ok (mkReflector (seqZ 1 25 ++ [0]))
  /\ Reflector_get 26 (mkReflector (seqZ 1 25 ++ [0])) 0 = Ok 1
  /\ Reflector_get 26 (mkReflector (seqZ 1 25 ++ [0])) 1 = Ok 2.
Proof. vm_compute. repeat split. Qed.

(** C7 on the code: [randint(0, ALPHABET_SIZE)] includes its upper end.  On
    the tape of 26s a fresh ring has notch 26, and the default ring offset,
    hence the ring offset of a rotor built without one, is 26. *)
Theorem notch_can_be_alphabet_size :
  fst (AlphabetRing_init 26 tape_top) = Ok (mkAlphabetRing 26)
  /\ fst (import_enigma 26 tape_top) = Ok (mkGlobals 26)
  /\ (Rotor__ringstellung
        <$> (match fst ((do globals <- import_enigma 26 ;;
                         Rotor_init 26 globals None) tape_top) with
             | Ok r => Some r
             | Raise _ => None
             end)) = Some 26
  /\ ~ 0 <= 26 < 26.
Proof. vm_compute. repeat split. intros [_ H]. discriminate H. Qed.

(** ** The plugboard *)

Lemma ord_letter (n : Z) : 0 <= n < 26 -> ord (letter n) = 97 + n.
Proof.
  intros Hn. unfold ord, letter. rewrite nat_ascii_embedding by lia. lia.
Qed.

Lemma letter_inj (a b : Z) : 0 <= a < 26 -> 0 <= b < 26 -> letter a = letter b -> a = b.
Proof.
  intros Ha Hb Heq. pose proof (ord_letter a Ha). pose proof (ord_letter b Hb).
  rewrite Heq in *. lia.
Qed.

Lemma letter_not_space (n : Z) : 0 <= n < 26 -> letter n <> " "%char.
Proof.
  intros Hn Heq. pose proof (ord_letter n Hn) as Hord.
  rewrite Heq in Hord. change (ord " ") with 32 in Hord. lia.
Qed.

Lemma lower_char_letter (n : Z) : 0 <= n < 26 -> lower_char (letter n) = letter n.
Proof.
  intros Hn. unfold lower_char.
  pose proof (ord_letter n Hn) as Hord. unfold ord in Hord.
  cbv zeta. destruct (decide _) as [Hup|]; [|done]. lia.
Qed.

Lemma numberToChar_letter (n : Z) : 0 <= n < 26 -> numberToChar n = Ok (letter n).
Proof.
  intros Hn. unfold numberToChar, chr.
  change (ord "a") with 97.
  destruct (decide (0 <= 97 + n < 256)); [done|lia].
Qed.

Lemma charToNumber_letter (n : Z) : 0 <= n < 26 -> charToNumber (letter n) = n.
Proof.
  intros Hn. unfold charToNumber. rewrite ord_letter by done.
  change (ord "a") with 97. lia.
Qed.

Lemma split_join_keys (pairs : list (Z * Z)) :
  pairs <> [] ->
  Forall (fun x => 0 <= x < 26) (pair_letters pairs) ->
  split " " (join " " (key_of <$> pairs)) = key_of <$> pairs.
Proof.
  induction pairs as [|[a b] pairs IH]; intros Hne Hall; [done|].
  simpl in Hall. apply Forall_cons in Hall as [Ha Hall].
  apply Forall_cons in Hall as [Hb Hall]. simpl in Ha, Hb.
  pose proof (letter_not_space a Ha). pose proof (letter_not_space b Hb).
  destruct pairs as [|ab' pairs].
  - simpl. unfold key_of. simpl.
    destruct (decide (letter a = " "%char)); [done|].
    destruct (decide (letter b = " "%char)); [done|]. done.
  - specialize (IH ltac:(done) Hall).
    change (join " " (key_of <$> (a, b) :: ab' :: pairs))
      with (String (letter a) (String (letter b)
              (String " " (join " " (key_of <$> ab' :: pairs))))).
    cbn [split].
    destruct (decide (letter a = " "%char)); [done|].
    destruct (decide (letter b = " "%char)); [done|].
    destruct (decide (" "%char = " "%char)); [|done].
    rewrite IH. done.
Qed.

Lemma plugboardKey_spec (mapping : list Z) :
  NoDup mapping -> Forall (fun x => 0 <= x < 26) mapping ->
  (2 <= length mapping)%nat ->
  always (plugboardKey mapping)
    (fun mk => exists a b, snd mk = key_of (a, b) /\ a :: b :: fst mk ≡ₚ mapping).
Proof.
  intros Hnodup Hall Hlen. unfold plugboardKey.
  apply always_bind with (P := fun l => l ≡ₚ mapping); [apply shuffle_Permutation|].
  intros l Hperm.
  assert (length l = length mapping) as Hl by (by rewrite Hperm).
  destruct l as [|numA [|numB rest]]; simpl in Hl; try lia.
  assert (Forall (fun x => 0 <= x < 26) (numA :: numB :: rest)) as Hall'
    by (by rewrite Hperm).
  apply Forall_cons in Hall' as [Ha Hall']. apply Forall_cons in Hall' as [Hb _].
  rewrite !numberToChar_letter by done. simpl.
  intros g. eexists _, g. split; [reflexivity|]. by exists numA, numB.
Qed.

Lemma plugboardKeys_spec (n : nat) (mapping : list Z) (keys : list string) :
  NoDup mapping -> Forall (fun x => 0 <= x < 26) mapping ->
  (2 * n <= length mapping)%nat ->
  always (plugboardKeys n mapping keys)
    (fun ks => exists pairs,
         ks = keys ++ (key_of <$> pairs)
         /\ length pairs = n
         /\ NoDup (pair_letters pairs)
         /\ pair_letters pairs ⊆ mapping).
Proof.
  revert mapping keys. induction n as [|n IH]; intros mapping keys Hnodup Hall Hlen.
  - simpl. apply always_ret. exists []. simpl.
    rewrite app_nil_r. repeat split; [constructor|].
    intros x Hx. by apply elem_of_nil in Hx.
  - simpl.
    eapply always_bind; [apply plugboardKey_spec; [done|done|lia]|].
    intros [mapping' key] (a & b & Hkey & Hperm). simpl in *. subst key.
    assert (NoDup (a :: b :: mapping')) as Hnd by (by rewrite Hperm).
    apply NoDup_cons in Hnd as [Ha Hnd]. apply NoDup_cons in Hnd as [Hb Hnd].
    assert (Forall (fun x => 0 <= x < 26) mapping') as Hall'.
    { rewrite <- Hperm in Hall. by do 2 apply Forall_cons in Hall as [_ Hall]. }
    assert (length mapping = S (S (length mapping'))) as Hlen'
      by (by rewrite <- Hperm).
    eapply always_weaken; [apply (IH mapping' (keys ++ [key_of (a, b)])); [done|done|lia]|].
    intros ks (pairs & -> & Hn & Hnd' & Hsub).
    exists ((a, b) :: pairs). simpl. rewrite <- app_assoc. simpl.
    repeat split; [lia| |].
    + apply NoDup_cons. split.
      { intros Hin. apply Ha. apply elem_of_cons in Hin as [->|Hin]; [by left|].
        right. by apply Hsub. }
      apply NoDup_cons. split; [|done].
      intros Hin. by apply Hb, Hsub.
    + rewrite <- Hperm. intros x Hx.
      apply elem_of_cons in Hx as [->|Hx]; [by left|]. right.
      apply elem_of_cons in Hx as [->|Hx]; [by left|]. right.
      by apply Hsub.
Qed.

Lemma lower_key_of (a b : Z) :
  0 <= a < 26 -> 0 <= b < 26 -> lower (key_of (a, b)) = key_of (a, b).
Proof.
  intros Ha Hb. unfold key_of. simpl. by rewrite !lower_char_letter.
Qed.

Lemma str_getitem_key_of (a b : Z) :
  str_getitem (key_of (a, b)) 0 = Ok (letter a)
  /\ str_getitem (key_of (a, b)) 1 = Ok (letter b).
Proof. split; apply getitem_lookup; (lia || done). Qed.

Section PlugboardConstruction.

Variable A : Z.
Hypothesis A_letters : A <= 26.

Lemma getRandomPlugboardString_spec :
  20 <= A ->
  always (getRandomPlugboardString A)
    (fun str => exists pairs,
         str = join " " (key_of <$> pairs)
         /\ (1 <= length pairs <= 10)%nat
         /\ NoDup (pair_letters pairs)
         /\ Forall (fun x => 0 <= x < A) (pair_letters pairs)).
Proof.
  intros HA. unfold getRandomPlugboardString.
  eapply always_bind; [apply (randint_range 1 10); lia|].
  intros numPairs HnumPairs. simpl in HnumPairs.
  eapply always_bind.
  - apply (plugboardKeys_spec (Z.to_nat numPairs) (ALPHABET_UNIVERSE A) []).
    + apply NoDup_seqZ.
    + apply Forall_forall. intros x Hx. apply in_universe in Hx. lia.
    + unfold ALPHABET_UNIVERSE. rewrite length_seqZ. lia.
  - intros keys (pairs & -> & Hlen & Hnodup & Hsub). apply always_ret.
    exists pairs. repeat split; [lia|lia|done|].
    apply Forall_forall. intros x Hx. apply in_universe. by apply Hsub.
Qed.

Lemma Plugboard__connect_letters (p : Plugboard) (a b : Z) :
  Z.of_nat (length (Plugboard__mapping p)) = A ->
  0 <= a < A -> 0 <= b < A -> a <> b ->
  Plugboard__connect A (letter a) (letter b) p
  = (Ok tt,
     mkPlugboard (<[Z.to_nat b := a]> (<[Z.to_nat a := b]> (Plugboard__mapping p)))
       (Plugboard__str p)).
Proof.
  intros Hlen Ha Hb Hab. unfold Plugboard__connect.
  destruct (decide (letter a = letter b)) as [Heq|_].
  { apply letter_inj in Heq; [done|lia|lia]. }
  rewrite !charToNumber_letter by lia.
  destruct (decide (a ∈ ALPHABET_UNIVERSE A)) as [_|Hn];
    [|exfalso; by apply Hn, in_universe].
  destruct (decide (b ∈ ALPHABET_UNIVERSE A)) as [_|Hn];
    [|exfalso; by apply Hn, in_universe].
  rewrite setitem_in_range by lia.
  by rewrite setitem_in_range by (rewrite length_insert; lia).
Qed.

Lemma Plugboard__setup_loop_pairs (pairs : list (Z * Z)) (mapping : list Z)
    (str : string) :
  Z.of_nat (length mapping) = A ->
  NoDup (pair_letters pairs) ->
  Forall (fun x => 0 <= x < A) (pair_letters pairs) ->
  exists mapping',
    Plugboard__setup_loop A (key_of <$> pairs) (mkPlugboard mapping str)
    = (Ok tt, mkPlugboard mapping' str)
    /\ length mapping' = length mapping
    /\ (forall i, 0 <= i -> i ∉ pair_letters pairs ->
                  mapping' !! Z.to_nat i = mapping !! Z.to_nat i)
    /\ (forall a b, (a, b) ∈ pairs ->
                    mapping' !! Z.to_nat a = Some b /\ mapping' !! Z.to_nat b = Some a).
Proof.
  revert mapping. induction pairs as [|[a b] pairs IH]; intros mapping Hlen Hnodup Hall.
  - exists mapping. split; [done|]. split; [done|]. split; [done|].
    intros a b Hin. by apply elem_of_nil in Hin.
  - simpl in Hnodup, Hall.
    apply NoDup_cons in Hnodup as [Ha Hnodup]. apply NoDup_cons in Hnodup as [Hb Hnodup].
    apply Forall_cons in Hall as [Ha' Hall]. apply Forall_cons in Hall as [Hb' Hall].
    simpl in Ha', Hb'.
    assert (a <> b) as Hab by (intros ->; apply Ha; by left).
    apply not_elem_of_cons in Ha as [_ Ha].
    destruct (IH (<[Z.to_nat b := a]> (<[Z.to_nat a := b]> mapping)))
      as (mapping' & Hrun & Hlen' & Hout & Hin);
      [by rewrite !length_insert|done|done|].
    exists mapping'.
    assert (Plugboard__setup_loop A (key_of <$> (a, b) :: pairs)
              (mkPlugboard mapping str) = (Ok tt, mkPlugboard mapping' str)) as ->.
    { rewrite fmap_cons. cbn [Plugboard__setup_loop].
      rewrite lower_key_of by lia.
      destruct (str_getitem_key_of a b) as [-> ->].
      unfold bind, lift.
      rewrite Plugboard__connect_letters by done. exact Hrun. }
    rewrite !length_insert in Hlen'.
    split; [done|]. split; [done|]. split.
    + intros i Hi Hnotin. simpl in Hnotin.
      apply not_elem_of_cons in Hnotin as [Hia Hnotin].
      apply not_elem_of_cons in Hnotin as [Hib Hnotin].
      rewrite Hout by done.
      rewrite !list_lookup_insert_ne by lia. done.
    + intros a' b' Hab'. apply elem_of_cons in Hab' as [[= -> ->]|Hab']; [|by apply Hin].
      rewrite !Hout by (lia || done). split.
      * rewrite list_lookup_insert_ne by lia.
        apply list_lookup_insert_eq. lia.
      * apply list_lookup_insert_eq. rewrite length_insert. lia.
Qed.

(** What [Plugboard()] builds, for an alphabet of 20 to 26 letters. *)
Lemma Plugboard_init_spec :
  20 <= A ->
  always (Plugboard_init A)
    (fun p => exists pairs,
         Plugboard__str p = join " " (key_of <$> pairs)
         /\ (1 <= length pairs <= 10)%nat
         /\ NoDup (pair_letters pairs)
         /\ Forall (fun x => 0 <= x < A) (pair_letters pairs)
         /\ Z.of_nat (length (Plugboard__mapping p)) = A
         /\ (forall a b, (a, b) ∈ pairs ->
                         a <> b /\ Plugboard_get p a = Ok b /\ Plugboard_get p b = Ok a)
         /\ (forall i, 0 <= i < A -> i ∉ pair_letters pairs ->
                       Plugboard_get p i = Ok i)).
Proof.
  intros HA. unfold Plugboard_init.
  eapply always_bind; [by apply getRandomPlugboardString_spec|].
  intros str (pairs & -> & Hlen & Hnodup & Hall).
  assert (Z.of_nat (length (ALPHABET_UNIVERSE A)) = A) as HlenU
    by (unfold ALPHABET_UNIVERSE; rewrite length_seqZ; lia).
  destruct (Plugboard__setup_loop_pairs pairs (ALPHABET_UNIVERSE A)
              (join " " (key_of <$> pairs)) HlenU Hnodup Hall)
    as (mapping' & Hrun & Hlen' & Hout & Hin).
  assert (forall a b, (a, b) ∈ pairs -> 0 <= a < A /\ 0 <= b < A) as Hrange.
  { intros a b Hab. rewrite Forall_forall in Hall.
    split; apply Hall, list_elem_of_In, in_flat_map; exists (a, b);
      (split; [by apply list_elem_of_In|simpl; auto]). }
  intros g. exists (mkPlugboard mapping' (join " " (key_of <$> pairs))), g.
  split.
  { unfold lift, construct, Plugboard__setup. simpl.
    rewrite split_join_keys; [by rewrite Hrun|by destruct pairs; simpl in *; [lia|]|].
    eapply Forall_impl; [exact Hall|]. simpl. lia. }
  exists pairs. simpl. unfold Plugboard_get. simpl.
  split; [done|]. split; [done|]. split; [done|]. split; [done|].
  split; [lia|]. split.
  - intros a b Hab. destruct (Hrange a b Hab) as [Ha Hb].
    destruct (Hin a b Hab) as [Hab1 Hab2].
    split; [|split; apply getitem_lookup; (lia || done)].
    intros ->. clear -Hnodup Hab.
    induction pairs as [|[x y] pairs IH]; [by apply elem_of_nil in Hab|].
    simpl in Hnodup. apply NoDup_cons in Hnodup as [Hx Hnodup].
    apply NoDup_cons in Hnodup as [_ Hnodup].
    apply elem_of_cons in Hab as [[= -> ->]|Hab]; [|by apply IH].
    apply Hx. by left.
  - intros i Hi Hnotin. apply getitem_lookup; [lia|].
    rewrite Hout by (lia || done). unfold ALPHABET_UNIVERSE.
    rewrite lookup_seqZ. split; lia.
Qed.


End PlugboardConstruction.


(** ** Construction of rotors *)

Section Construction.

Variable A : Z.
Variable N : Z.
Hypothesis A_nonneg : 0 <= A.

Lemma randomNumber_range : always (randomNumber A) (fun v => 0 <= v <= A).
Proof. by apply randint_range. Qed.

Lemma Rotor_init_default (globals : Globals) :
  always (Rotor_init A globals None)
    (fun r => Rotor__ringstellung r = Rotor_init_defaults globals).
Proof.
  unfold Rotor_init, RotorDisc_init, AlphabetRing_init. simpl.
  eapply always_bind.
  { eapply always_bind; [apply shuffle_Permutation|].
    intros m _. by apply always_ret with (P := fun _ => True). }
  intros disc _. eapply always_bind.
  { eapply always_bind; [apply randomNumber_range|].
    intros v _. by apply always_ret with (P := fun _ => True). }
  intros ring _. by apply always_ret.
Qed.

Lemma Rotors_init_default (globals : Globals) (n : nat) :
  always (Rotors_init A globals n)
    (fun rotors =>
       length rotors = n
       /\ Forall (fun r => Rotor__ringstellung r = Rotor_init_defaults globals) rotors).
Proof.
  induction n as [|n IH]; simpl.
  - by apply always_ret.
  - eapply always_bind; [apply Rotor_init_default|].
    intros rotor Hrotor. eapply always_bind; [apply IH|].
    intros rest [Hlen Hrest]. apply always_ret. simpl. split; [lia|].
    by constructor.
Qed.

Lemma RotorAssembly_init_default (globals : Globals) :
  always (RotorAssembly_init A N globals)
    (fun asm =>
       length (RotorAssembly_rotors asm) = Z.to_nat N
       /\ Forall (fun r => Rotor__ringstellung r = Rotor_init_defaults globals)
            (RotorAssembly_rotors asm)).
Proof.
  unfold RotorAssembly_init.
  eapply always_bind; [apply Rotors_init_default|].
  intros rotors Hrotors. eapply always_bind.
  { unfold Reflector_init. eapply always_bind; [apply shuffle_Permutation|].
    intros m _. by apply always_ret with (P := fun _ => True). }
  intros reflector _. by apply always_ret.
Qed.

(** C10.  The default ring offset is drawn once, when the module is loaded.
    Every rotor built without a ring offset has that value; so have all
    [N] rotors of every [RotorAssembly] and of every [Enigma], whatever the
    state of the random source when they are built. *)
Theorem default_ringstellung_shared (globals : Globals) :
  A <= 26 ->
  (forall g, exists v g', import_enigma A g = (Ok (mkGlobals v), g')
                          /\ randomNumber A g = (Ok v, g'))
  /\ (forall g, exists r g',
         Rotor_init A globals None g = (Ok r, g')
         /\ Rotor__ringstellung r = Rotor_init_defaults globals)
  /\ (forall g, exists asm g',
         RotorAssembly_init A N globals g = (Ok asm, g')
         /\ length (RotorAssembly_rotors asm) = Z.to_nat N
         /\ Forall (fun r => Rotor__ringstellung r = Rotor_init_defaults globals)
              (RotorAssembly_rotors asm))
  /\ (20 <= A ->
      forall g, exists e g',
        Enigma_init A N globals g = (Ok e, g')
        /\ length (RotorAssembly_rotors (_rotor_asm e)) = Z.to_nat N
        /\ Forall (fun r => Rotor__ringstellung r = Rotor_init_defaults globals)
             (RotorAssembly_rotors (_rotor_asm e))).
Proof.
  intros HA. split; [|split; [|split]].
  - intros g. destruct (randomNumber_range g) as (v & g' & Hrun & _).
    exists v, g'. unfold import_enigma, bind. by rewrite Hrun.
  - apply Rotor_init_default.
  - apply RotorAssembly_init_default.
  - intros HA' g. unfold Enigma_init.
    eapply (always_bind _ _ _ _ (RotorAssembly_init_default globals)).
    intros asm Hasm.
    eapply always_bind; [by apply Plugboard_init_spec|].
    intros plugboard _. by apply always_ret.
Qed.

End Construction.

Lemma default_ringstellung_shared_witness :
  exists e g',
    Enigma_init 26 3 (mkGlobals 7) tape_one = (Ok e, g')
    /\ Forall (fun r => Rotor__ringstellung r = 7) (RotorAssembly_rotors (_rotor_asm e)).
Proof.
  destruct (default_ringstellung_shared 26 3 ltac:(lia) (mkGlobals 7) ltac:(lia))
    as (_ & _ & _ & H).
  destruct (H ltac:(lia) tape_one) as (e & g' & Hrun & _ & Hall).
  exact (ex_intro _ e (ex_intro _ g' (conj Hrun Hall))).
Defined.

(** ** Text: [str]/[int] and [dumps]/[loads] *)

Lemma string_app_assoc (s t u : string) : (s +:+ t) +:+ u = s +:+ (t +:+ u).
Proof.
  induction s as [|c s IH]; [done|].
  change (String c ((s +:+ t) +:+ u) = String c (s +:+ (t +:+ u))).
  by rewrite IH.
Qed.

Lemma str_Forall_app (P : ascii -> Prop) (s t : string) :
  str_Forall P s -> str_Forall P t -> str_Forall P (s +:+ t).
Proof. induction s as [|c s IH]; simpl; [done|]. intros [Hc Hs] Ht. auto. Qed.

Lemma string_of_uint_chars (d : Decimal.uint) :
  str_Forall numeral_char (NilEmpty.string_of_uint d).
Proof. induction d; simpl; repeat split; done. Qed.

Lemma py_str_chars (n : Z) : str_Forall numeral_char (py_str n).
Proof.
  unfold py_str. destruct (Z.to_int n) as [d|d]; simpl.
  - destruct d; try apply (string_of_uint_chars (_ _)). by repeat split.
  - split; [by split|].
    destruct d; try apply (string_of_uint_chars (_ _)). by repeat split.
Qed.

Lemma py_str_nonempty (n : Z) : py_str n <> EmptyString.
Proof.
  unfold py_str. destruct (Z.to_int n) as [d|d]; simpl; [|done].
  by destruct d.
Qed.

Lemma py_int_py_str (n : Z) : py_int (py_str n) = Ok n.
Proof.
  unfold py_int, py_str. rewrite NilZero.isi.
  - by rewrite DecimalZ.of_to.
  - destruct n; simpl; [done| |done]. intros [= H]. by apply Unsigned.to_uint_nonnil in H.
  - destruct n; simpl; [done|done|]. intros [= H]. by apply Unsigned.to_uint_nonnil in H.
Qed.

Lemma split_no_sep (sep : ascii) (s : string) :
  str_Forall (fun c => c <> sep) s -> split sep s = [s].
Proof.
  induction s as [|c s IH]; simpl; [done|]. intros [Hc Hs].
  destruct (decide (c = sep)); [done|]. by rewrite IH.
Qed.

Lemma split_app_sep (sep : ascii) (s t : string) :
  str_Forall (fun c => c <> sep) s ->
  split sep (s +:+ String sep t) = s :: split sep t.
Proof.
  induction s as [|c s IH]; simpl.
  - intros _. by destruct (decide (sep = sep)).
  - intros [Hc Hs]. destruct (decide (c = sep)); [done|]. by rewrite IH.
Qed.

Lemma str_unsnoc_snoc (s : string) (c : ascii) :
  str_unsnoc (s +:+ String c EmptyString) = Some (s, c).
Proof. induction s as [|x s IH]; simpl; [done|]. by rewrite IH. Qed.

Lemma lstrip_py_str (n : Z) : lstrip (py_str n) = py_str n.
Proof.
  pose proof (py_str_chars n) as H. destruct (py_str n) as [|c r]; [done|].
  destruct H as [[_ Hc] _]. simpl.
  destruct c as [[] [] [] [] [] [] [] []]; done.
Qed.

Lemma loads_items_join (l : list Z) (pre : string) :
  l <> [] -> pre = EmptyString \/ pre = " "%string ->
  loads_items (split "," (pre +:+ join ", " (py_str <$> l))) = Ok l.
Proof.
  revert pre. induction l as [|x l IH]; intros pre Hne Hpre; [done|].
  assert (str_Forall (fun c => c <> ","%char) (pre +:+ py_str x)) as Hnosep.
  { apply str_Forall_app.
    - destruct Hpre as [->| ->]; simpl; [done|]. by split.
    - pose proof (py_str_chars x) as H. induction (py_str x); simpl in *; [done|].
      destruct H as [[? _] ?]. auto. }
  assert (lstrip (pre +:+ py_str x) = py_str x) as Hstrip
    by (destruct Hpre as [->| ->]; simpl; apply lstrip_py_str).
  destruct l as [|y l].
  - simpl. rewrite split_no_sep by done. simpl.
    by rewrite Hstrip, py_int_py_str.
  - change (join ", " (py_str <$> x :: y :: l))
      with (py_str x +:+ String "," (" " +:+ join ", " (py_str <$> y :: l))).
    rewrite <- string_app_assoc, split_app_sep by done.
    cbn [loads_items]. rewrite Hstrip, py_int_py_str. cbn [res_bind].
    by rewrite (IH " "%string) by (done || auto).
Qed.

Lemma loads_dumps (l : list Z) : loads (dumps l) = Ok l.
Proof.
  unfold dumps, loads.
  change ("[" +:+ join ", " (py_str <$> l) +:+ "]")
    with (String "[" (join ", " (py_str <$> l) +:+ "]")).
  cbv beta iota. rewrite str_unsnoc_snoc. cbv beta iota.
  destruct l as [|x l]; [done|].
  pose proof (loads_items_join (x :: l) EmptyString ltac:(done) ltac:(auto)) as H.
  destruct (join ", " (py_str <$> x :: l)) as [|c r] eqn:Hjoin;
    [|exact H].
  exfalso. simpl in Hjoin. destruct l; simpl in Hjoin.
  - by apply py_str_nonempty in Hjoin.
  - pose proof (py_str_nonempty x). destruct (py_str x); [done|discriminate].
Qed.

(** ** Saving and loading *)

Lemma cfg_ensure_run (section : string) (cfg : ConfigParser) :
  cfg_ensure section cfg = (Ok tt, <[section := default ∅ (cfg !! section)]> cfg).
Proof.
  unfold cfg_ensure. destruct (cfg !! section) as [options|] eqn:Hsec; simpl; [|done].
  by rewrite insert_id.
Qed.

Lemma cfg_set_insert (section key value : string) (options : gmap string string)
    (cfg : ConfigParser) :
  cfg_set section key value (<[section := options]> cfg)
  = (Ok tt, <[section := <[optionxform key := value]> options]> cfg).
Proof. unfold cfg_set. by rewrite lookup_insert_eq, insert_insert_eq. Qed.

Lemma cfg_ensure_insert (section : string) (options : gmap string string)
    (cfg : ConfigParser) :
  cfg_ensure section (<[section := options]> cfg)
  = (Ok tt, <[section := options]> cfg).
Proof.
  rewrite cfg_ensure_run, lookup_insert_eq. simpl. by rewrite insert_insert_eq.
Qed.

Lemma cfg_get_insert_eq (cfg : ConfigParser) (section key : string)
    (options : gmap string string) :
  cfg_get (<[section := options]> cfg) section key
  = match options !! optionxform key with
    | Some v => Ok v
    | None => Raise KeyError
    end.
Proof. unfold cfg_get. by rewrite lookup_insert_eq. Qed.

Lemma cfg_get_insert_ne (cfg : ConfigParser) (section section' key : string)
    (options : gmap string string) :
  section' <> section ->
  cfg_get (<[section' := options]> cfg) section key = cfg_get cfg section key.
Proof. intros Hne. unfold cfg_get. by rewrite lookup_insert_ne. Qed.

(** Reading a file over a parser keeps every option of the file. *)
Lemma cfg_get_read (file cfg : ConfigParser) (section key value : string) :
  cfg_get file section key = Ok value ->
  cfg_get (cfg_read file cfg) section key = Ok value.
Proof.
  unfold cfg_get, cfg_read. rewrite lookup_union_with.
  destruct (file !! section) as [new|]; [|done].
  destruct (new !! optionxform key) as [v|] eqn:Hkey; [|done].
  intros [= ->].
  destruct (cfg !! section) as [old|]; simpl.
  - by rewrite (lookup_union_Some_l _ _ _ _ Hkey).
  - by rewrite Hkey.
Qed.

Lemma Rotor_saveCfg_run (r : Rotor) (section : string) (cfg : ConfigParser) :
  Rotor_saveCfg r section cfg
  = (Ok tt, <[section := rotor_options r (default ∅ (cfg !! section))]> cfg).
Proof.
  unfold Rotor_saveCfg, RotorDisc_saveCfg, AlphabetRing_saveCfg, bind.
  rewrite cfg_ensure_run, cfg_set_insert.
  rewrite cfg_ensure_insert, cfg_set_insert.
  rewrite cfg_ensure_insert, cfg_set_insert.
  reflexivity.
Qed.

Lemma rotorSectionName_inj (i j : nat) :
  rotorSectionName i = rotorSectionName j -> i = j.
Proof.
  unfold rotorSectionName. intros H.
  apply (inj (String.app "Rotor_")) in H. apply (inj pretty) in H. lia.
Qed.

Lemma rotorSectionName_not_Reflector (i : nat) : rotorSectionName i <> "Reflector".
Proof.
  unfold rotorSectionName. intros H.
  apply (f_equal (String.get 1)) in H. discriminate H.
Qed.

Lemma rotorSectionName_not_Plugboard (i : nat) : rotorSectionName i <> "Plugboard".
Proof.
  unfold rotorSectionName. intros H.
  apply (f_equal (String.get 0)) in H. discriminate H.
Qed.

Lemma rotor_saved_insert (r : Rotor) (section : string) (cfg : ConfigParser)
    (options : gmap string string) :
  rotor_saved r (<[section := rotor_options r options]> cfg) section.
Proof.
  unfold rotor_saved. rewrite !cfg_get_insert_eq.
  change (optionxform "Ringstellung") with "ringstellung".
  change (optionxform "notch") with "notch".
  change (optionxform "config") with "config".
  unfold rotor_options.
  rewrite lookup_insert_eq.
  rewrite (lookup_insert_ne _ "notch" "config"), lookup_insert_eq by done.
  rewrite (lookup_insert_ne _ "notch" "ringstellung") by done.
  rewrite (lookup_insert_ne _ "config" "ringstellung"), lookup_insert_eq by done.
  done.
Qed.

Lemma rotor_saved_frame (r : Rotor) (section section' : string) (cfg : ConfigParser)
    (options : gmap string string) :
  section' <> section ->
  rotor_saved r cfg section -> rotor_saved r (<[section' := options]> cfg) section.
Proof.
  intros Hne. unfold rotor_saved. by rewrite !cfg_get_insert_ne.
Qed.

Lemma rotor_saved_read (r : Rotor) (section : string) (file cfg : ConfigParser) :
  rotor_saved r file section -> rotor_saved r (cfg_read file cfg) section.
Proof.
  intros (H1 & H2 & H3). unfold rotor_saved.
  by rewrite (cfg_get_read _ _ _ _ _ H1), (cfg_get_read _ _ _ _ _ H2),
    (cfg_get_read _ _ _ _ _ H3).
Qed.

Lemma Rotors_saveCfg_spec (rotors : list Rotor) (idx : nat) (cfg : ConfigParser) :
  exists cfg',
    Rotors_saveCfg rotors idx cfg = (Ok tt, cfg')
    /\ (forall j r, rotors !! j = Some r -> rotor_saved r cfg' (rotorSectionName (idx + j)))
    /\ (forall section,
          (forall j, (j < length rotors)%nat -> section <> rotorSectionName (idx + j)) ->
          cfg' !! section = cfg !! section).
Proof.
  revert idx cfg. induction rotors as [|r rotors IH]; intros idx cfg.
  - exists cfg. split; [done|]. split; [|done]. intros j r Hj. done.
  - cbn [Rotors_saveCfg]. unfold bind. rewrite Rotor_saveCfg_run.
    destruct (IH (S idx)
                (<[rotorSectionName idx
                   := rotor_options r (default ∅ (cfg !! rotorSectionName idx))]> cfg))
      as (cfg' & Hrun & Hsaved & Hframe).
    exists cfg'. split; [exact Hrun|]. split.
    + intros [|j] r' Hj; simpl in Hj.
      * injection Hj as <-. rewrite Nat.add_0_r.
        pose proof (rotor_saved_insert r (rotorSectionName idx) cfg
                      (default ∅ (cfg !! rotorSectionName idx))) as Hnow.
        unfold rotor_saved, cfg_get in *.
        rewrite Hframe; [exact Hnow|].
        intros j _ Heq. apply rotorSectionName_inj in Heq. lia.
      * replace (idx + S j)%nat with (S idx + j)%nat by lia. by apply Hsaved.
    + intros section Hsec. rewrite Hframe.
      * apply lookup_insert_ne. intros Heq.
        apply (Hsec 0%nat); [simpl; lia|]. by rewrite Nat.add_0_r.
      * intros j Hj. replace (S idx + j)%nat with (idx + S j)%nat by lia.
        apply Hsec. simpl. lia.
Qed.

Lemma Rotor_loadCfg_saved (cfg : ConfigParser) (section : string) (r self : Rotor) :
  rotor_saved r cfg section -> Rotor_loadCfg cfg section self = (Ok tt, r).
Proof.
  intros (Hring & Hnotch & Hconfig).
  unfold Rotor_loadCfg, RotorDisc_loadCfg, AlphabetRing_loadCfg.
  unfold bind, lift, modify, zoom.
  rewrite Hring, py_int_py_str. simpl.
  rewrite Hconfig, loads_dumps. simpl.
  rewrite Hnotch, py_int_py_str. simpl.
  by destruct r as [[?] [?] ?].
Qed.

Lemma Rotors_loadCfg_saved (cfg : ConfigParser) (self rotors : list Rotor) (idx : nat) :
  length self = length rotors ->
  (forall j r, rotors !! j = Some r -> rotor_saved r cfg (rotorSectionName (idx + j))) ->
  Rotors_loadCfg cfg idx self = (Ok tt, rotors).
Proof.
  revert rotors idx. induction self as [|x self IH]; intros rotors idx Hlen Hsaved.
  - by destruct rotors.
  - destruct rotors as [|r rotors]; [done|]. simpl in Hlen.
    cbn [Rotors_loadCfg].
    rewrite (Rotor_loadCfg_saved cfg _ r).
    + rewrite (IH rotors (S idx)); [done|lia|].
      intros j r' Hj. replace (S idx + j)%nat with (idx + S j)%nat by lia.
      by apply Hsaved.
    + specialize (Hsaved 0%nat r eq_refl). by rewrite Nat.add_0_r in Hsaved.
Qed.

Lemma RotorAssembly_saveCfg_spec (asm : RotorAssembly) (cfg : ConfigParser) :
  exists cfg',
    RotorAssembly_saveCfg asm cfg = (Ok tt, cfg')
    /\ cfg_get cfg' "Reflector" "config"
       = Ok (dumps (Reflector__mapping (_reflector asm)))
    /\ (forall j r, RotorAssembly_rotors asm !! j = Some r ->
                    rotor_saved r cfg' (rotorSectionName j)).
Proof.
  unfold RotorAssembly_saveCfg, Reflector_saveCfg, bind.
  rewrite cfg_ensure_run, cfg_set_insert.
  destruct (Rotors_saveCfg_spec (RotorAssembly_rotors asm) 0
              (<["Reflector"
                 := <[optionxform "config"
                      := dumps (Reflector__mapping (_reflector asm))]>
                      (default ∅ (cfg !! "Reflector"))]> cfg))
    as (cfg' & Hrun & Hsaved & Hframe).
  exists cfg'. rewrite Hrun. split; [done|]. split; [|exact Hsaved].
  unfold cfg_get. rewrite Hframe.
  - by rewrite !lookup_insert_eq.
  - intros j _ Heq. symmetry in Heq. by apply rotorSectionName_not_Reflector in Heq.
Qed.

Lemma Reflector_loadCfg_saved (cfg : ConfigParser) (mapping : list Z)
    (self : Reflector) :
  cfg_get cfg "Reflector" "config" = Ok (dumps mapping) ->
  Reflector_loadCfg cfg "Reflector" self = (Ok tt, mkReflector mapping).
Proof.
  intros Hconfig. unfold Reflector_loadCfg, bind, lift, modify.
  by rewrite Hconfig, loads_dumps.
Qed.

(** C8.  [saveCfg] writes a [Reflector] section, a section [Rotor_k] for
    each rotor with its [Ringstellung], [notch] and [config], and a
    [Plugboard] section, and stores the parser under the path.  [loadCfg] of
    that file into a machine with as many rotors gives it the reflector and
    the rotors that were saved, and leaves its plugboard and its stepping
    counters as they were.  [loadCfg] of a path that holds no file leaves
    the machine as it was. *)
Theorem save_load_contract (src dst : Enigma) (fs : FileSystem) (path : string) :
  length (RotorAssembly_rotors (_rotor_asm dst))
  = length (RotorAssembly_rotors (_rotor_asm src)) ->
  (exists cfg,
      Enigma_saveCfg path (src, fs)
      = (Ok tt, (with_config cfg src, <[path := cfg]> fs))
      /\ cfg_get cfg "Reflector" "config"
         = Ok (dumps (Reflector__mapping (_reflector (_rotor_asm src))))
      /\ (forall j r, RotorAssembly_rotors (_rotor_asm src) !! j = Some r ->
                      rotor_saved r cfg (rotorSectionName j))
      /\ cfg_get cfg "Plugboard" "settings" = Ok (Plugboard__str (_plugboard src))
      /\ Enigma_loadCfg (<[path := cfg]> fs) path dst
         = (Ok tt,
            mkEnigma
              (mkRotorAssembly (_reflector (_rotor_asm src))
                 (mkPawlAndRatchetMechanism
                    (RotorAssembly_rotors (_rotor_asm src))
                    (_n (_prm (_rotor_asm dst)))
                    (_rotation_count (_prm (_rotor_asm dst)))))
              (_plugboard dst)
              (cfg_read cfg (_config dst))))
  /\ (forall (fs' : FileSystem) (e : Enigma),
         fs' !! path = None -> Enigma_loadCfg fs' path e = (Ok tt, e)).
Proof.
  intros Hlen. split.
  - destruct (RotorAssembly_saveCfg_spec (_rotor_asm src) (_config src))
      as (cfg1 & Hrun & Hrefl & Hrotors).
    set (cfg := <["Plugboard"
                  := <[optionxform "settings" := Plugboard__str (_plugboard src)]>
                       (default ∅ (cfg1 !! "Plugboard"))]> cfg1).
    assert (cfg_get cfg "Reflector" "config"
            = Ok (dumps (Reflector__mapping (_reflector (_rotor_asm src)))))
      as Hrefl' by (unfold cfg; by rewrite cfg_get_insert_ne).
    assert (forall j r, RotorAssembly_rotors (_rotor_asm src) !! j = Some r ->
                        rotor_saved r cfg (rotorSectionName j)) as Hrotors'.
    { intros j r Hj. apply rotor_saved_frame; [|by apply Hrotors].
      intros Heq. symmetry in Heq. by apply rotorSectionName_not_Plugboard in Heq. }
    exists cfg. split; [|split; [exact Hrefl'|split; [exact Hrotors'|split]]].
    + unfold Enigma_saveCfg, bind, gets, zoom, modify, Plugboard_saveCfg. simpl.
      unfold bind. rewrite Hrun, cfg_ensure_run, cfg_set_insert. done.
    + unfold cfg. rewrite cfg_get_insert_eq. by rewrite lookup_insert_eq.
    + unfold Enigma_loadCfg, isConfigFilePresent. rewrite lookup_insert_eq.
      rewrite bool_decide_eq_true_2 by eauto.
      unfold bind, modify, gets, zoom, RotorAssembly_loadCfg. simpl.
      assert (is_Some (cfg_read cfg (_config dst) !! "Reflector")) as Hsec.
      { pose proof (cfg_get_read _ (_config dst) _ _ _ Hrefl') as Hget.
        unfold cfg_get in Hget.
        destruct (cfg_read cfg (_config dst) !! "Reflector"); [eauto|done]. }
      destruct (decide (is_Some (cfg_read cfg (_config dst) !! "Reflector")));
        [|done].
      unfold bind, zoom.
      rewrite (Reflector_loadCfg_saved _
                 (Reflector__mapping (_reflector (_rotor_asm src))))
        by (by apply cfg_get_read).
      simpl.
      rewrite (Rotors_loadCfg_saved _ _ (RotorAssembly_rotors (_rotor_asm src)));
        [|exact Hlen|intros j r Hj; by apply rotor_saved_read, Hrotors'].
      unfold with_rotor_asm, with_rotors, with_reflector, with_config. simpl.
      by destruct src as [[[?] ?] ? ?].
  - intros fs' e Hnone. unfold Enigma_loadCfg, isConfigFilePresent.
    rewrite Hnone. by rewrite bool_decide_eq_false_2 by (by intros [? ?]).
Qed.

Lemma save_load_contract_witness :
  exists cfg,
    cfg_get cfg "Plugboard" "settings" = Ok "ab"%string
    /\ Enigma_loadCfg (<["enigma.cfg" := cfg]> ∅) "enigma.cfg" machine_zero
       = (Ok tt,
          mkEnigma
            (mkRotorAssembly reflector_pairs
               (mkPawlAndRatchetMechanism [rotor_shift; rotor_shift; rotor_shift]
                  3 [0; 0]))
            plugboard_ab (cfg_read cfg ∅)).
Proof.
  destruct (save_load_contract machine_shift machine_zero ∅ "enigma.cfg" eq_refl)
    as [(cfg & _ & _ & _ & Hplug & Hload) _].
  exact (ex_intro _ cfg (conj Hplug Hload)).
Defined.

(** ** More on the pawl-and-ratchet mechanism *)

Lemma turnover_flags_length (prm : PawlAndRatchetMechanism) :
  wf_prm prm -> length (turnover_flags prm) = length (_rotors prm).
Proof.
  intros [_ Hlen]. unfold turnover_flags. simpl.
  rewrite length_zip_with_l; lia.
Qed.

Lemma turnover_flags_lookup (prm : PawlAndRatchetMechanism) (idx : nat) :
  wf_prm prm -> (idx < length (_rotors prm))%nat ->
  turnover_flags prm !! idx = Some (advances prm idx).
Proof.
  intros [_ Hlen] Hidx. unfold turnover_flags, advances.
  destruct idx as [|k]; [done|]. simpl.
  destruct (lookup_lt_is_Some_2 (_rotation_count prm) k) as [c Hc]; [lia|].
  destruct (lookup_lt_is_Some_2 (_rotors prm) k) as [r Hr]; [lia|].
  rewrite lookup_zip_with, Hc, Hr. done.
Qed.

Lemma stepped_rotors_lookup (flags : list bool) (rotors : list Rotor) (idx : nat) :
  stepped_rotors flags rotors !! idx
  = (fun r => if default false (flags !! idx) then Rotor_rotate r else r)
      <$> rotors !! idx.
Proof.
  revert rotors idx. induction flags as [|f flags IH]; intros rotors idx.
  - simpl. by destruct (rotors !! idx).
  - destruct rotors as [|r rotors]; [done|]. destruct idx as [|idx]; [done|].
    simpl. apply IH.
Qed.

Lemma stepped_counts_lookup (A : Z) (flags : list bool) (count : list Z) (idx : nat) :
  stepped_counts A flags count !! idx
  = (fun c => if default false (flags !! idx) then (c + 1) mod A else c)
      <$> count !! idx.
Proof.
  revert count idx. induction flags as [|f flags IH]; intros count idx.
  - simpl. by destruct (count !! idx).
  - destruct count as [|c count]; [done|]. destruct idx as [|idx]; [done|].
    simpl. apply IH.
Qed.

Lemma stepped_rotors_length (flags : list bool) (rotors : list Rotor) :
  length (stepped_rotors flags rotors) = length rotors.
Proof.
  revert rotors. induction flags as [|f flags IH]; intros [|r rotors]; simpl; auto.
Qed.

Lemma stepped_counts_length (A : Z) (flags : list bool) (count : list Z) :
  length (stepped_counts A flags count) = length count.
Proof.
  revert count. induction flags as [|f flags IH]; intros [|c count]; simpl; auto.
Qed.

(** What one call of [rotate] does to a mechanism with [N] rotors and [N - 1]
    counters, read off the state before the call. *)
Lemma rotate_outcome (A : Z) (prm : PawlAndRatchetMechanism) :
  A <> 0 -> wf_prm prm ->
  exists prm',
    PawlAndRatchetMechanism_rotate A prm
    = (if advances prm (last_rotor prm) then Raise IndexError else Ok tt, prm')
    /\ _n prm' = _n prm
    /\ length (_rotors prm') = length (_rotors prm)
    /\ (forall idx, idx <> last_rotor prm ->
          _rotors prm' !! idx
          = (fun r => if advances prm idx then Rotor_rotate r else r)
              <$> _rotors prm !! idx)
    /\ _rotors prm' !! last_rotor prm = _rotors prm !! last_rotor prm
    /\ (forall idx,
          _rotation_count prm' !! idx
          = (fun c => if advances prm idx then (c + 1) mod A else c)
              <$> _rotation_count prm !! idx).
Proof.
  intros HA Hwf. pose proof Hwf as [Hn Hlen].
  pose proof (turnover_flags_length prm Hwf) as Hflags.
  exists (mkPawlAndRatchetMechanism
            (stepped_rotors
               (take (length (_rotation_count prm)) (turnover_flags prm))
               (_rotors prm))
            (_n prm)
            (stepped_counts A (turnover_flags prm) (_rotation_count prm))).
  split; [|split; [|split; [|split; [|split]]]].
  - rewrite PawlAndRatchetMechanism_rotate_spec by done.
    rewrite last_lookup, Hflags.
    rewrite turnover_flags_lookup by (done || lia).
    simpl. unfold last_rotor.
    replace (Init.Nat.pred (length (_rotors prm))) with (length (_rotors prm) - 1)%nat
      by lia.
    reflexivity.
  - done.
  - cbn [_rotors]. apply stepped_rotors_length.
  - intros idx Hidx. cbn [_rotors]. rewrite stepped_rotors_lookup.
    destruct (_rotors prm !! idx) as [r|] eqn:Hr; [|done]. simpl.
    apply lookup_lt_Some in Hr. unfold last_rotor in Hidx.
    rewrite lookup_take_lt by lia.
    by rewrite turnover_flags_lookup by (done || lia).
  - cbn [_rotors]. rewrite stepped_rotors_lookup. unfold last_rotor.
    rewrite lookup_take_ge by lia. simpl.
    by destruct (_rotors prm !! _).
  - intros idx. cbn [_rotation_count]. rewrite stepped_counts_lookup.
    destruct (_rotation_count prm !! idx) as [c|] eqn:Hc; [|done]. simpl.
    apply lookup_lt_Some in Hc.
    by rewrite turnover_flags_lookup by (done || lia).
Qed.

Lemma rotate_keeps_wf_prm (A : Z) (prm : PawlAndRatchetMechanism) :
  A <> 0 -> wf_prm prm -> wf_prm (snd (PawlAndRatchetMechanism_rotate A prm)).
Proof.
  intros HA Hwf. rewrite PawlAndRatchetMechanism_rotate_spec by done.
  destruct Hwf as [Hn Hlen]. unfold wf_prm. cbn [snd _rotors _n _rotation_count].
  by rewrite stepped_rotors_length, stepped_counts_length.
Qed.

(** The machine after [Enigma.get]: as it was, when the call raised before
    the step, or with the mechanism as the one step left it. *)
Lemma Enigma_get_state (A : Z) (i : Z) (e : Enigma) :
  snd (Enigma_get A i e) = e
  \/ snd (Enigma_get A i e)
     = with_rotor_asm
         (with_prm (snd (PawlAndRatchetMechanism_rotate A (_prm (_rotor_asm e))))
            (_rotor_asm e)) e.
Proof.
  unfold Enigma_get, RotorAssembly_get, bind, read, zoom, ret.
  destruct (Plugboard_get (_plugboard e) i) as [i2|x]; [|by left].
  destruct (apply A (obj_list (_rotor_asm e)) i2 0) as [i3|x].
  - right.
    destruct (PawlAndRatchetMechanism_rotate A (_prm (_rotor_asm e)))
      as [[[]|x] prm']; simpl; [|done].
    by destruct (Plugboard_get (_plugboard e) i3).
  - left. simpl. by destruct e as [[] ? ?].
Qed.

(** X1.  A keystroke that does not flag the last rotor succeeds.  Rotor 0
    and every rotor whose predecessor's counter stands at the predecessor's
    notch rotate once and have their counters incremented modulo [A]; the
    other rotors and counters stay; all flags are read from the state before
    the keystroke. *)
Theorem keystroke_advances_flagged_rotors (A : Z) (prm : PawlAndRatchetMechanism) :
  A <> 0 -> wf_prm prm -> advances prm (last_rotor prm) = false ->
  exists prm',
    PawlAndRatchetMechanism_rotate A prm = (Ok tt, prm')
    /\ _n prm' = _n prm
    /\ (forall idx,
          _rotors prm' !! idx
          = (fun r => if advances prm idx then Rotor_rotate r else r)
              <$> _rotors prm !! idx)
    /\ (forall idx,
          _rotation_count prm' !! idx
          = (fun c => if advances prm idx then (c + 1) mod A else c)
              <$> _rotation_count prm !! idx).
Proof.
  intros HA Hwf Hlast.
  destruct (rotate_outcome A prm HA Hwf) as (prm' & Hrun & Hn & _ & Hrotors & Hkeep & Hcount).
  exists prm'. rewrite Hlast in Hrun.
  split; [done|]. split; [done|]. split; [|done].
  intros idx. destruct (decide (idx = last_rotor prm)) as [->|Hne]; [|by apply Hrotors].
  rewrite Hkeep, Hlast. by destruct (_rotors prm !! last_rotor prm).
Qed.

Lemma keystroke_advances_flagged_rotors_witness :
  exists prm',
    PawlAndRatchetMechanism_rotate 26 (_prm (_rotor_asm machine_shift)) = (Ok tt, prm')
    /\ _rotation_count prm' !! 0%nat = Some 1.
Proof.
  destruct (keystroke_advances_flagged_rotors 26 (_prm (_rotor_asm machine_shift))
              ltac:(lia) ltac:(split; reflexivity) eq_refl)
    as (prm' & Hrun & _ & _ & Hcount).
  exact (ex_intro _ prm' (conj Hrun (Hcount 0%nat))).
Defined.

(** X2.  A keystroke that flags the last rotor raises [IndexError]: the last
    rotor has no counter.  The rotors before it have advanced as flagged by
    then, the last rotor has not rotated. *)
Theorem keystroke_flagging_last_rotor_raises (A : Z) (prm : PawlAndRatchetMechanism) :
  A <> 0 -> wf_prm prm -> advances prm (last_rotor prm) = true ->
  exists prm',
    PawlAndRatchetMechanism_rotate A prm = (Raise IndexError, prm')
    /\ _rotors prm' !! last_rotor prm = _rotors prm !! last_rotor prm
    /\ (forall idx, idx <> last_rotor prm ->
          _rotors prm' !! idx
          = (fun r => if advances prm idx then Rotor_rotate r else r)
              <$> _rotors prm !! idx)
    /\ (forall idx,
          _rotation_count prm' !! idx
          = (fun c => if advances prm idx then (c + 1) mod A else c)
              <$> _rotation_count prm !! idx).
Proof.
  intros HA Hwf Hlast.
  destruct (rotate_outcome A prm HA Hwf) as (prm' & Hrun & Hn & _ & Hrotors & Hkeep & Hcount).
  exists prm'. rewrite Hlast in Hrun. done.
Qed.

Lemma keystroke_flagging_last_rotor_raises_witness :
  fst (PawlAndRatchetMechanism_rotate 26 (_prm (_rotor_asm machine_zero)))
  = Raise IndexError.
Proof.
  destruct (keystroke_flagging_last_rotor_raises 26 (_prm (_rotor_asm machine_zero))
              ltac:(lia) ltac:(split; reflexivity) eq_refl)
    as (prm' & Hrun & _).
  exact (f_equal fst Hrun).
Defined.

(** X3.  No sequence of calls of [Enigma.get] ever rotates the last rotor,
    whatever the inputs and whether or not the calls raise: the last rotor is
    either not flagged, or its advance raises before its disc rotates. *)
Theorem last_rotor_never_rotates (A : Z) (e : Enigma) (inputs : list Z) :
  A <> 0 -> wf_prm (_prm (_rotor_asm e)) ->
  let e' := foldl (fun e i => snd (Enigma_get A i e)) e inputs in
  wf_prm (_prm (_rotor_asm e'))
  /\ RotorAssembly_rotors (_rotor_asm e') !! last_rotor (_prm (_rotor_asm e))
     = RotorAssembly_rotors (_rotor_asm e) !! last_rotor (_prm (_rotor_asm e)).
Proof.
  intros HA. revert e. induction inputs as [|i inputs IH]; intros e Hwf; [done|].
  cbn [foldl].
  assert (wf_prm (_prm (_rotor_asm (snd (Enigma_get A i e))))
          /\ last_rotor (_prm (_rotor_asm (snd (Enigma_get A i e))))
             = last_rotor (_prm (_rotor_asm e))
          /\ RotorAssembly_rotors (_rotor_asm (snd (Enigma_get A i e)))
               !! last_rotor (_prm (_rotor_asm e))
             = RotorAssembly_rotors (_rotor_asm e) !! last_rotor (_prm (_rotor_asm e)))
    as (Hwf' & Hlast & Hsame).
  { destruct (Enigma_get_state A i e) as [->| ->]; [done|].
    cbn [_rotor_asm with_rotor_asm _prm with_prm].
    destruct (rotate_outcome A _ HA Hwf) as (prm' & Hrun & _ & Hlen & _ & Hkeep & _).
    pose proof (rotate_keeps_wf_prm A _ HA Hwf) as Hwf'.
    rewrite Hrun in *. cbn [snd] in *.
    split; [done|]. split; [|exact Hkeep].
    unfold last_rotor. by rewrite Hlen. }
  destruct (IH _ Hwf') as [Hwf'' Hrot]. split; [done|].
  rewrite Hlast in Hrot. by rewrite Hrot.
Qed.

Lemma last_rotor_never_rotates_witness :
  RotorAssembly_rotors
    (_rotor_asm (foldl (fun e i => snd (Enigma_get 26 i e)) machine_shift [2; 7; 0]))
    !! 2%nat
  = Some rotor_shift.
Proof.
  destruct (last_rotor_never_rotates 26 machine_shift [2; 7; 0] ltac:(lia)
              ltac:(split; reflexivity)) as [_ H].
  exact H.
Defined.

(** ** More on discs and rotors *)

Lemma deque_rotate1_Permutation {X} (d : list X) : deque_rotate1 d ≡ₚ d.
Proof.
  destruct (last d) as [x|] eqn:Hlast.
  - apply last_Some in Hlast as [init ->]. rewrite deque_rotate1_snoc.
    by rewrite Permutation_app_comm.
  - unfold deque_rotate1. by rewrite Hlast.
Qed.

Lemma iter_deque_rotate1 {X} (l : list X) (k : nat) :
  (k <= length l)%nat ->
  Nat.iter k deque_rotate1 l
  = drop (length l - k) l ++ take (length l - k) l.
Proof.
  induction k as [|k IH]; intros Hk.
  - simpl. by rewrite Nat.sub_0_r, drop_all, take_ge.
  - rewrite Nat.iter_succ. rewrite IH by lia.
    destruct (lookup_lt_is_Some_2 l (length l - S k)) as [x Hx]; [lia|].
    replace (length l - k)%nat with (S (length l - S k)) by lia.
    rewrite (take_S_r _ _ x Hx), app_assoc, deque_rotate1_snoc.
    by rewrite (drop_S _ _ _ Hx).
Qed.

Lemma RotorDisc_rotate_iter (d : RotorDisc) (k : nat) :
  RotorDisc__mapping (Nat.iter k RotorDisc_rotate d)
  = Nat.iter k deque_rotate1 (RotorDisc__mapping d).
Proof. induction k as [|k IH]; [done|]. rewrite Nat.iter_succ. simpl. by rewrite IH. Qed.

Lemma RotorDisc_rotate_iter_length (d : RotorDisc) :
  Nat.iter (length (RotorDisc__mapping d)) RotorDisc_rotate d = d.
Proof.
  pose proof (RotorDisc_rotate_iter d (length (RotorDisc__mapping d))) as H.
  rewrite iter_deque_rotate1 in H by lia.
  rewrite Nat.sub_diag, drop_0, take_0, app_nil_r in H.
  destruct (Nat.iter _ _ d) as [m], d as [m']. simpl in H. by subst.
Qed.

(** X4.  As many calls of [rotate] as the disc has entries bring the disc
    back to where it started, so only the number of rotations modulo the
    length matters. *)
Theorem RotorDisc_rotate_full_cycle (d : RotorDisc) (k : nat) :
  Nat.iter (k + length (RotorDisc__mapping d)) RotorDisc_rotate d
  = Nat.iter k RotorDisc_rotate d
  /\ Nat.iter k RotorDisc_rotate d
     = Nat.iter (k mod length (RotorDisc__mapping d)) RotorDisc_rotate d.
Proof.
  assert (forall q, Nat.iter (q * length (RotorDisc__mapping d)) RotorDisc_rotate d = d)
    as Hmul.
  { induction q as [|q IH]; [done|].
    rewrite Nat.mul_succ_l, Nat.iter_add, RotorDisc_rotate_iter_length. exact IH. }
  split.
  - by rewrite Nat.iter_add, RotorDisc_rotate_iter_length.
  - destruct (decide (length (RotorDisc__mapping d) = 0%nat)) as [Hz|Hnz].
    + by rewrite Hz.
    + pose proof (Nat.div_mod_eq k (length (RotorDisc__mapping d))) as Hk.
      transitivity (Nat.iter (k mod length (RotorDisc__mapping d)
                              + k / length (RotorDisc__mapping d)
                                * length (RotorDisc__mapping d))
                      RotorDisc_rotate d).
      * f_equal. lia.
      * by rewrite Nat.iter_add, Hmul.
Qed.

Lemma RotorDisc_rotate_iter_Permutation (d : RotorDisc) (k : nat) :
  RotorDisc__mapping (Nat.iter k RotorDisc_rotate d) ≡ₚ RotorDisc__mapping d.
Proof.
  induction k as [|k IH]; [done|]. rewrite Nat.iter_succ. simpl.
  by rewrite deque_rotate1_Permutation.
Qed.

Section Bijections.

Variable A : Z.

(** X5.  A fresh disc is a shuffle of the alphabet and stays a permutation
    of it under any number of rotations: [get] is then a bijection of
    [[0, A)]. *)
Theorem RotorDisc_init_rotated_bijection (g : Random) (k : nat) :
  exists d g',
    RotorDisc_init A g = (Ok d, g')
    /\ RotorDisc__mapping (Nat.iter k RotorDisc_rotate d) ≡ₚ ALPHABET_UNIVERSE A
    /\ (forall i, 0 <= i < A ->
          exists j, RotorDisc_get A (Nat.iter k RotorDisc_rotate d) i = Ok j
                    /\ 0 <= j < A)
    /\ (forall i i' j,
          RotorDisc_get A (Nat.iter k RotorDisc_rotate d) i = Ok j ->
          RotorDisc_get A (Nat.iter k RotorDisc_rotate d) i' = Ok j -> i = i')
    /\ (forall j, 0 <= j < A ->
          exists i, 0 <= i < A
                    /\ RotorDisc_get A (Nat.iter k RotorDisc_rotate d) i = Ok j).
Proof.
  destruct (shuffle_Permutation (ALPHABET_UNIVERSE A) g) as (m & g' & Hrun & Hperm).
  exists (mkRotorDisc m), g'. unfold RotorDisc_init, bind. rewrite Hrun.
  split; [done|].
  set (d := Nat.iter k RotorDisc_rotate (mkRotorDisc m)).
  assert (RotorDisc__mapping d ≡ₚ ALPHABET_UNIVERSE A) as Hd
    by (unfold d; by rewrite RotorDisc_rotate_iter_Permutation).
  split; [done|].
  destruct (permutation_lookup_bijection A _ Hd) as (Hinto & Hinj & Hsurj).
  assert (forall i, 0 <= i < A -> RotorDisc_get A d i = getitem (RotorDisc__mapping d) i)
    as Hget.
  { intros i Hi. unfold RotorDisc_get.
    destruct (decide (i ∈ ALPHABET_UNIVERSE A)) as [|Hn]; [done|].
    exfalso. by apply Hn, in_universe. }
  assert (forall i j, RotorDisc_get A d i = Ok j -> 0 <= i < A) as Hdom.
  { intros i j. unfold RotorDisc_get.
    destruct (decide (i ∈ ALPHABET_UNIVERSE A)) as [Hin|]; [|done].
    intros _. by apply in_universe. }
  repeat split.
  - intros i Hi. rewrite Hget by done. by apply Hinto.
  - intros i i' j Hj Hj'.
    pose proof (Hdom _ _ Hj). pose proof (Hdom _ _ Hj').
    rewrite Hget in Hj, Hj' by done. by eapply Hinj.
  - intros j Hj. destruct (Hsurj j Hj) as (i & Hi & Hij).
    exists i. split; [done|]. by rewrite Hget.
Qed.

Lemma permutation_wf_mapping (mapping : list Z) :
  0 <= A -> mapping ≡ₚ ALPHABET_UNIVERSE A -> wf_mapping A mapping.
Proof.
  intros HA Hperm. split.
  - rewrite Hperm. unfold ALPHABET_UNIVERSE. rewrite length_seqZ. lia.
  - rewrite Hperm. apply Forall_forall. intros x Hx. by apply in_universe.
Qed.

(** A permutation of the alphabet, read by [at_index], is a bijection. *)
Lemma at_index_bijection (mapping : list Z) :
  mapping ≡ₚ ALPHABET_UNIVERSE A ->
  (forall i i', 0 <= i < A -> 0 <= i' < A ->
                at_index mapping i = at_index mapping i' -> i = i')
  /\ (forall j, 0 <= j < A -> exists i, 0 <= i < A /\ at_index mapping i = j).
Proof.
  intros Hperm.
  destruct (permutation_lookup_bijection A _ Hperm) as (Hinto & Hinj & Hsurj).
  assert (forall i, 0 <= i < A -> getitem mapping i = Ok (at_index mapping i)) as Hat.
  { intros i Hi. destruct (Hinto i Hi) as (j & Hj & _). rewrite Hj.
    apply getitem_Ok_nonneg in Hj; [|lia]. unfold at_index. by rewrite Hj. }
  split.
  - intros i i' Hi Hi' Heq. apply (Hinj i i' (at_index mapping i)); try done.
    + by apply Hat.
    + rewrite Heq. by apply Hat.
  - intros j Hj. destruct (Hsurj j Hj) as (i & Hi & Hij).
    exists i. split; [done|]. rewrite Hat in Hij by done. congruence.
Qed.

Lemma shift_mod_inj (s i i' : Z) :
  0 <= i < A -> 0 <= i' < A -> (i + s) mod A = (i' + s) mod A -> i = i'.
Proof.
  intros Hi Hi' Heq.
  pose proof (Z.div_mod (i + s) A ltac:(lia)) as H1.
  pose proof (Z.div_mod (i' + s) A ltac:(lia)) as H2.
  rewrite Heq in H1.
  set (q := (i + s) / A) in *. set (q' := (i' + s) / A) in *.
  assert (i - i' = A * (q - q')) as Hdiff by lia.
  destruct (Z.lt_trichotomy q q') as [Hlt|[Heq'|Hgt]]; [nia| |nia].
  rewrite Heq' in Hdiff. lia.
Qed.

Lemma rotor_stage_bijection (r : Rotor) :
  0 < A ->
  RotorDisc__mapping (_rotor_disc r) ≡ₚ ALPHABET_UNIVERSE A ->
  (forall i, 0 <= rotor_stage A r i < A)
  /\ (forall i i', 0 <= i < A -> 0 <= i' < A ->
                   rotor_stage A r i = rotor_stage A r i' -> i = i')
  /\ (forall j, 0 <= j < A -> exists i, 0 <= i < A /\ rotor_stage A r i = j).
Proof.
  intros HA Hperm.
  destruct (at_index_bijection _ Hperm) as [Hinj Hsurj].
  split; [|split].
  - intros i. apply rotor_stage_wf; [done|]. apply permutation_wf_mapping; [lia|done].
  - intros i i' Hi Hi' Heq. unfold rotor_stage in Heq.
    apply Hinj in Heq; try (apply Z.mod_pos_bound; lia).
    by eapply shift_mod_inj.
  - intros j Hj. destruct (Hsurj j Hj) as (m & Hm & Hmj).
    exists ((m - Rotor__ringstellung r) mod A).
    split; [apply Z.mod_pos_bound; lia|].
    unfold rotor_stage. rewrite Zplus_mod_idemp_l.
    replace (m - Rotor__ringstellung r + Rotor__ringstellung r) with m by lia.
    by rewrite Z.mod_small.
Qed.

(** X6.  [Rotor.get] accepts every integer and depends only on its residue
    modulo [A]; on a rotor whose disc is a permutation of the alphabet it
    returns an index, and restricted to [[0, A)] it is a bijection. *)
Theorem Rotor_get_bijection (r : Rotor) :
  0 < A ->
  RotorDisc__mapping (_rotor_disc r) ≡ₚ ALPHABET_UNIVERSE A ->
  (forall i, exists j, Rotor_get A r i = Ok j /\ 0 <= j < A)
  /\ (forall i, Rotor_get A r (i + A) = Rotor_get A r i)
  /\ (forall i i', 0 <= i < A -> 0 <= i' < A ->
                   Rotor_get A r i = Rotor_get A r i' -> i = i')
  /\ (forall j, 0 <= j < A -> exists i, 0 <= i < A /\ Rotor_get A r i = Ok j).
Proof.
  intros HA Hperm.
  destruct (rotor_stage_bijection r HA Hperm) as (Hinto & Hinj & Hsurj).
  pose proof (permutation_wf_mapping _ ltac:(lia) Hperm) as [Hlen _].
  split; [|split; [|split]].
  - intros i. exists (rotor_stage A r i). by rewrite Rotor_get_stage.
  - intros i. rewrite !Rotor_get_stage by done. f_equal. unfold rotor_stage.
    f_equal. replace (i + A + Rotor__ringstellung r)
      with (i + Rotor__ringstellung r + 1 * A) by lia.
    apply Z_mod_plus_full.
  - intros i i' Hi Hi'. rewrite !Rotor_get_stage by done.
    intros [= Heq]. by apply Hinj.
  - intros j Hj. destruct (Hsurj j Hj) as (i & Hi & <-).
    exists i. by rewrite Rotor_get_stage.
Qed.

End Bijections.

Lemma Rotor_get_bijection_witness :
  exists j, Rotor_get 26 rotor_shift 100 = Ok j /\ 0 <= j < 26.
Proof.
  destruct (Rotor_get_bijection 26 rotor_shift ltac:(lia)) as [H _].
  - apply (RotorDisc_rotate_iter_Permutation disc_identity 25).
  - exact (H 100).
Defined.

(** ** More on [Enigma.get] *)

Lemma machine_shift_permutation : permutation_Enigma 26 machine_shift.
Proof.
  split; [|split]; [decide_by_computation..|].
  repeat constructor; decide_by_computation.
Qed.

Section Encoding.

Variable A : Z.
Hypothesis A_pos : 0 < A.

Lemma permutation_Enigma_wf (e : Enigma) : permutation_Enigma A e -> wf_Enigma A e.
Proof.
  intros (Hplug & Hrefl & Hrotors).
  split; [|split]; try (apply permutation_wf_mapping; [lia|done]).
  eapply Forall_impl; [exact Hrotors|]. intros r Hr.
  apply permutation_wf_mapping; [lia|done].
Qed.

(** The value and the final machine of [Enigma.get] on a valid input. *)
Lemma Enigma_get_run (e : Enigma) (i : Z) :
  wf_Enigma A e -> 0 <= i < A ->
  Enigma_get A i e
  = (match fst (PawlAndRatchetMechanism_rotate A (_prm (_rotor_asm e))) with
     | Ok _ => Ok (signal_path A e i)
     | Raise x => Raise x
     end,
     with_rotor_asm
       (with_prm (snd (PawlAndRatchetMechanism_rotate A (_prm (_rotor_asm e))))
          (_rotor_asm e)) e).
Proof.
  intros (Hplug & Hrefl & Hrotors) Hi.
  pose proof (at_index_wf A _ _ Hplug Hi) as Hi2.
  destruct (RotorAssembly_apply_chain A (_rotor_asm e) _ A_pos Hrefl Hrotors Hi2)
    as [Happly Hi3].
  unfold Enigma_get, RotorAssembly_get, bind, read, zoom, ret.
  rewrite (Plugboard_get_in_range A _ _ (proj1 Hplug) Hi).
  rewrite Happly.
  destruct (PawlAndRatchetMechanism_rotate A (_prm (_rotor_asm e)))
    as [[[]|x] prm']; simpl; [|done].
  by rewrite (Plugboard_get_in_range A _ _ (proj1 Hplug) Hi3).
Qed.

Lemma foldl_rotor_stage_inj (rotors : list Rotor) (i i' : Z) :
  Forall (fun r => RotorDisc__mapping (_rotor_disc r) ≡ₚ ALPHABET_UNIVERSE A) rotors ->
  0 <= i < A -> 0 <= i' < A ->
  foldl (fun x r => rotor_stage A r x) i rotors
  = foldl (fun x r => rotor_stage A r x) i' rotors ->
  i = i'.
Proof.
  intros Hall. revert i i'.
  induction Hall as [|r rotors Hr _ IH]; intros i i' Hi Hi' Heq; [done|].
  destruct (rotor_stage_bijection A r A_pos Hr) as (Hinto & Hinj & _).
  simpl in Heq. apply IH in Heq; [|apply Hinto|apply Hinto]. by apply Hinj.
Qed.

Lemma foldl_rotor_stage_surj (rotors : list Rotor) (j : Z) :
  Forall (fun r => RotorDisc__mapping (_rotor_disc r) ≡ₚ ALPHABET_UNIVERSE A) rotors ->
  0 <= j < A ->
  exists i, 0 <= i < A /\ foldl (fun x r => rotor_stage A r x) i rotors = j.
Proof.
  intros Hall Hj. induction Hall as [|r rotors Hr _ IH]; [by exists j|].
  destruct IH as (i1 & Hi1 & Hfold).
  destruct (rotor_stage_bijection A r A_pos Hr) as (_ & _ & Hsurj).
  destruct (Hsurj i1 Hi1) as (i & Hi & Hstage).
  exists i. split; [done|]. simpl. by rewrite Hstage.
Qed.

Lemma foldl_rotor_stage_range (rotors : list Rotor) (i : Z) :
  Forall (fun r => RotorDisc__mapping (_rotor_disc r) ≡ₚ ALPHABET_UNIVERSE A) rotors ->
  0 <= i < A -> 0 <= foldl (fun x r => rotor_stage A r x) i rotors < A.
Proof.
  intros Hall Hi. apply foldl_rotor_stage_wf; [done|done|].
  eapply Forall_impl; [exact Hall|]. intros r Hr.
  apply permutation_wf_mapping; [lia|done].
Qed.

Lemma signal_path_bijection (e : Enigma) :
  permutation_Enigma A e ->
  (forall i i', 0 <= i < A -> 0 <= i' < A ->
                signal_path A e i = signal_path A e i' -> i = i')
  /\ (forall v, 0 <= v < A -> exists i, 0 <= i < A /\ signal_path A e i = v).
Proof.
  intros (Hplug & Hrefl & Hrotors).
  destruct (at_index_bijection A _ Hplug) as [Hplug_inj Hplug_surj].
  destruct (at_index_bijection A _ Hrefl) as [Hrefl_inj Hrefl_surj].
  pose proof (permutation_wf_mapping A _ ltac:(lia) Hplug) as Hplug_wf.
  pose proof (permutation_wf_mapping A _ ltac:(lia) Hrefl) as Hrefl_wf.
  assert (Forall (fun r => RotorDisc__mapping (_rotor_disc r) ≡ₚ ALPHABET_UNIVERSE A)
            (reverse (RotorAssembly_rotors (_rotor_asm e)))) as Hrev
    by (by apply Forall_reverse).
  unfold signal_path, rotor_chain. split.
  - intros i i' Hi Hi' Heq.
    pose proof (at_index_wf A _ _ Hplug_wf Hi) as H1.
    pose proof (at_index_wf A _ _ Hplug_wf Hi') as H1'.
    pose proof (foldl_rotor_stage_range _ _ Hrotors H1) as H2.
    pose proof (foldl_rotor_stage_range _ _ Hrotors H1') as H2'.
    pose proof (at_index_wf A _ _ Hrefl_wf H2) as H3.
    pose proof (at_index_wf A _ _ Hrefl_wf H2') as H3'.
    apply Hplug_inj in Heq; [|by apply foldl_rotor_stage_range..].
    apply foldl_rotor_stage_inj in Heq; [|done..].
    apply Hrefl_inj in Heq; [|done..].
    apply foldl_rotor_stage_inj in Heq; [|done..].
    by apply Hplug_inj.
  - intros v Hv.
    destruct (Hplug_surj v Hv) as (b & Hb & Hvb).
    destruct (foldl_rotor_stage_surj _ b Hrev Hb) as (m & Hm & Hbm).
    destruct (Hrefl_surj m Hm) as (f & Hf & Hmf).
    destruct (foldl_rotor_stage_surj _ f Hrotors Hf) as (p & Hp & Hfp).
    destruct (Hplug_surj p Hp) as (i & Hi & Hpi).
    exists i. split; [done|]. by rewrite Hpi, Hfp, Hmf, Hbm.
Qed.

(** X7.  On a machine whose mappings are permutations of the alphabet, one
    keystroke is a substitution cipher: two different valid inputs never
    encode to the same output in the same state, and when the step does not
    raise every index is the encoding of some valid input. *)
Theorem Enigma_get_bijection (e : Enigma) :
  permutation_Enigma A e ->
  (forall i i' v, 0 <= i < A -> 0 <= i' < A ->
                  fst (Enigma_get A i e) = Ok v -> fst (Enigma_get A i' e) = Ok v ->
                  i = i')
  /\ (fst (PawlAndRatchetMechanism_rotate A (_prm (_rotor_asm e))) = Ok tt ->
      forall v, 0 <= v < A ->
                exists i, 0 <= i < A /\ fst (Enigma_get A i e) = Ok v).
Proof.
  intros Hperm. pose proof (permutation_Enigma_wf e Hperm) as Hwf.
  destruct (signal_path_bijection e Hperm) as [Hinj Hsurj].
  split.
  - intros i i' v Hi Hi'. rewrite !Enigma_get_run by done. cbn [fst].
    destruct (fst (PawlAndRatchetMechanism_rotate A (_prm (_rotor_asm e))));
      [|done].
    intros [= Hv] [= Hv']. apply Hinj; congruence.
  - intros Hstep v Hv. destruct (Hsurj v Hv) as (i & Hi & Hiv).
    exists i. split; [done|]. rewrite Enigma_get_run by done. cbn [fst].
    by rewrite Hstep, Hiv.
Qed.

End Encoding.

Lemma Enigma_get_bijection_witness :
  exists i, 0 <= i < 26 /\ fst (Enigma_get 26 i machine_shift) = Ok 7.
Proof.
  destruct (Enigma_get_bijection 26 ltac:(lia) machine_shift machine_shift_permutation)
    as [_ H].
  apply H; [vm_compute; reflexivity | lia].
Defined.

(** ** What a keystroke keeps *)

Lemma getitem_setitem_same {X} (l : list X) (i : Z) (x v : X) :
  getitem l i = Ok x ->
  exists j, l !! j = Some x /\ setitem l i v = Ok (<[j := v]> l).
Proof.
  unfold getitem, setitem.
  destruct (decide (0 <= (if decide (i < 0) then i + Z.of_nat (length l) else i)
                    < Z.of_nat (length l))); [|done].
  destruct (l !! Z.to_nat _) as [y|] eqn:Hy; [|done].
  intros [= ->]. eauto.
Qed.

Lemma rotate_rotor_frame (A : Z) (index : Z) (prm : PawlAndRatchetMechanism) :
  _n (snd (PawlAndRatchetMechanism__rotate_rotor A index prm)) = _n prm
  /\ rotor_setting <$> _rotors (snd (PawlAndRatchetMechanism__rotate_rotor A index prm))
     = rotor_setting <$> _rotors prm.
Proof.
  unfold PawlAndRatchetMechanism__rotate_rotor, bind, read, lift, modify.
  destruct (getitem (_rotation_count prm) index) as [c|]; [|done].
  destruct (py_mod (c + 1) A) as [c'|]; [|done].
  destruct (setitem (_rotation_count prm) index c') as [count|]; [|done].
  cbn [_rotors _n _rotation_count].
  destruct (getitem (_rotors prm) index) as [rotor|] eqn:Hget; [|done].
  destruct (getitem_setitem_same _ _ _ (Rotor_rotate rotor) Hget) as (j & Hj & ->).
  cbn [snd _rotors _n]. split; [done|].
  rewrite list_fmap_insert.
  apply list_insert_id. by rewrite list_lookup_fmap, Hj.
Qed.

Lemma perform_rotations_frame (A : Z) (pending : list bool) (idx : Z)
    (prm : PawlAndRatchetMechanism) :
  _n (snd (perform_rotations A idx pending prm)) = _n prm
  /\ rotor_setting <$> _rotors (snd (perform_rotations A idx pending prm))
     = rotor_setting <$> _rotors prm.
Proof.
  revert idx prm. induction pending as [|p pending IH]; intros idx prm; [done|].
  cbn [perform_rotations]. unfold bind.
  destruct p.
  - pose proof (rotate_rotor_frame A idx prm) as [Hn Hset].
    destruct (PawlAndRatchetMechanism__rotate_rotor A idx prm) as [[[]|x] prm1];
      cbn [snd] in Hn, Hset; cbn beta iota; [|done].
    destruct (IH (idx + 1) prm1) as [Hn' Hset']. split; congruence.
  - unfold ret. apply IH.
Qed.

Lemma rotate_frame (A : Z) (prm : PawlAndRatchetMechanism) :
  _n (snd (PawlAndRatchetMechanism_rotate A prm)) = _n prm
  /\ rotor_setting <$> _rotors (snd (PawlAndRatchetMechanism_rotate A prm))
     = rotor_setting <$> _rotors prm.
Proof.
  unfold PawlAndRatchetMechanism_rotate, bind, read.
  destruct (pending_rotations prm) as [pending|]; [|done].
  apply perform_rotations_frame.
Qed.

(** X8.  Calls of [Enigma.get] rotate discs and advance counters and touch
    nothing else: whatever the inputs, and whether or not the calls raise,
    the plugboard, the parser, the reflector, the number of rotors and each
    rotor's notch and ring offset are afterwards what they were. *)
Theorem Enigma_get_frame (A : Z) (e : Enigma) (inputs : list Z) :
  let e' := foldl (fun e i => snd (Enigma_get A i e)) e inputs in
  _plugboard e' = _plugboard e
  /\ _config e' = _config e
  /\ _reflector (_rotor_asm e') = _reflector (_rotor_asm e)
  /\ _n (_prm (_rotor_asm e')) = _n (_prm (_rotor_asm e))
  /\ rotor_setting <$> RotorAssembly_rotors (_rotor_asm e')
     = rotor_setting <$> RotorAssembly_rotors (_rotor_asm e).
Proof.
  revert e. induction inputs as [|i inputs IH]; intros e; [done|].
  cbn [foldl]. cbv zeta in IH.
  destruct (IH (snd (Enigma_get A i e))) as (H1 & H2 & H3 & H4 & H5).
  rewrite H1, H2, H3, H4, H5. clear IH H1 H2 H3 H4 H5.
  destruct (Enigma_get_state A i e) as [->| ->]; [done|].
  destruct (rotate_frame A (_prm (_rotor_asm e))) as [Hn Hset].
  unfold RotorAssembly_rotors. by cbn [_plugboard _config _rotor_asm with_rotor_asm
    _reflector with_prm _prm].
Qed.

Section Invariants.

Variable A : Z.
Hypothesis A_pos : 0 < A.

Lemma stepped_rotors_Forall (P : Rotor -> Prop) (flags : list bool)
    (rotors : list Rotor) :
  (forall r, P r -> P (Rotor_rotate r)) ->
  Forall P rotors -> Forall P (stepped_rotors flags rotors).
Proof.
  intros HP Hall. revert flags.
  induction Hall as [|r rotors Hr Hall IH]; intros [|f flags]; simpl;
    try by constructor.
  constructor; [by destruct f; auto|apply IH].
Qed.

Lemma stepped_counts_range (flags : list bool) (count : list Z) :
  Forall (fun c => 0 <= c < A) count ->
  Forall (fun c => 0 <= c < A) (stepped_counts A flags count).
Proof.
  intros Hall. revert flags.
  induction Hall as [|c count Hc Hall IH]; intros [|f flags]; simpl;
    try by constructor.
  constructor; [|apply IH].
  destruct f; [apply Z.mod_pos_bound; lia|done].
Qed.

Lemma Enigma_get_step_keeps_invariants (e : Enigma) (i : Z) :
  permutation_Enigma A e -> wf_prm (_prm (_rotor_asm e)) ->
  Forall (fun c => 0 <= c < A) (_rotation_count (_prm (_rotor_asm e))) ->
  permutation_Enigma A (snd (Enigma_get A i e))
  /\ wf_prm (_prm (_rotor_asm (snd (Enigma_get A i e))))
  /\ Forall (fun c => 0 <= c < A)
       (_rotation_count (_prm (_rotor_asm (snd (Enigma_get A i e))))).
Proof.
  intros (Hplug & Hrefl & Hrotors) Hwf Hcount.
  destruct (Enigma_get_state A i e) as [->| ->]; [done|].
  pose proof (rotate_keeps_wf_prm A _ ltac:(lia) Hwf) as Hwf'.
  rewrite PawlAndRatchetMechanism_rotate_spec in * by (done || lia).
  cbn [snd _plugboard _rotor_asm with_rotor_asm _prm with_prm _rotation_count] in *.
  split; [|split; [done|by apply stepped_counts_range]].
  split; [done|]. split; [done|].
  unfold RotorAssembly_rotors in *. cbn [_rotor_asm _prm _rotors].
  apply stepped_rotors_Forall; [|done].
  intros r Hr. simpl. by rewrite deque_rotate1_Permutation.
Qed.

(** X9.  The invariants of a machine survive every sequence of calls of
    [Enigma.get], raising or not: every mapping stays a permutation of the
    alphabet, the mechanism keeps one counter for every rotor but the last,
    and every counter stays in [[0, A)]. *)
Theorem Enigma_get_keeps_invariants (e : Enigma) (inputs : list Z) :
  permutation_Enigma A e -> wf_prm (_prm (_rotor_asm e)) ->
  Forall (fun c => 0 <= c < A) (_rotation_count (_prm (_rotor_asm e))) ->
  let e' := foldl (fun e i => snd (Enigma_get A i e)) e inputs in
  permutation_Enigma A e'
  /\ wf_prm (_prm (_rotor_asm e'))
  /\ Forall (fun c => 0 <= c < A) (_rotation_count (_prm (_rotor_asm e'))).
Proof.
  revert e. induction inputs as [|i inputs IH]; intros e Hperm Hwf Hcount; [done|].
  cbn [foldl].
  destruct (Enigma_get_step_keeps_invariants e i Hperm Hwf Hcount) as (H1 & H2 & H3).
  by apply IH.
Qed.

End Invariants.

Lemma Enigma_get_keeps_invariants_witness :
  Forall (fun c => 0 <= c < 26)
    (_rotation_count
       (_prm (_rotor_asm (foldl (fun e i => snd (Enigma_get 26 i e)) machine_shift
                            [2; 7; 0])))).
Proof.
  destruct (Enigma_get_keeps_invariants 26 ltac:(lia) machine_shift [2; 7; 0]
              machine_shift_permutation ltac:(split; reflexivity)
              ltac:(repeat constructor; lia)) as (_ & _ & H).
  exact H.
Defined.

(** ** Fresh machines *)

Section Fresh.

Variable A : Z.
Variable N : Z.

(** X10.  [AlphabetRing()] draws its notch from [[0, A]], both ends
    included: every such value is the notch for some state of the random
    source and no other value is; with a negative [ALPHABET_SIZE] the
    constructor raises [ValueError]. *)
Theorem AlphabetRing_init_notch_range :
  (0 <= A ->
   forall g, exists ring g',
     AlphabetRing_init A g = (Ok ring, g') /\ 0 <= notch ring <= A)
  /\ (forall v, 0 <= v <= A ->
        fst (AlphabetRing_init A (tape_const (Z.to_nat v))) = Ok (mkAlphabetRing v))
  /\ (A < 0 -> forall g, AlphabetRing_init A g = (Raise ValueError, g)).
Proof.
  split; [|split].
  - intros HA g. destruct (randint_range 0 A HA g) as (v & g' & Hrun & Hv).
    exists (mkAlphabetRing v), g'. unfold AlphabetRing_init, randomNumber, bind.
    by rewrite Hrun.
  - intros v Hv. unfold AlphabetRing_init, randomNumber, randint, bind.
    destruct (decide (0 <= A)); [|lia]. simpl.
    rewrite Z2Nat.id by lia. rewrite Z.mod_small by lia. done.
  - intros HA g. unfold AlphabetRing_init, randomNumber, randint, bind.
    by destruct (decide (0 <= A)); [lia|].
Qed.

Lemma involution_Permutation (mapping : list Z) :
  Z.of_nat (length mapping) = A ->
  (forall i, 0 <= i < A ->
             exists j, 0 <= j < A /\ getitem mapping i = Ok j /\ getitem mapping j = Ok i) ->
  mapping ≡ₚ ALPHABET_UNIVERSE A.
Proof.
  intros Hlen Hinv.
  assert (forall (i : nat) x, mapping !! i = Some x ->
            0 <= x < A /\ getitem mapping x = Ok (Z.of_nat i)) as Hback.
  { intros i x Hx. pose proof (lookup_lt_Some _ _ _ Hx).
    destruct (Hinv (Z.of_nat i) ltac:(lia)) as (j & Hj & Hij & Hji).
    apply getitem_Ok_nonneg in Hij; [|lia]. rewrite Nat2Z.id in Hij.
    assert (j = x) as -> by congruence. done. }
  apply submseteq_length_Permutation.
  - apply NoDup_submseteq.
    + apply NoDup_alt. intros i j x Hi Hj.
      destruct (Hback i x Hi) as [_ Hi']. destruct (Hback j x Hj) as [_ Hj'].
      rewrite Hi' in Hj'. injection Hj' as Hj'. lia.
    + intros x Hx. apply list_elem_of_lookup in Hx as [i Hi].
      apply in_universe. by destruct (Hback i x Hi).
  - unfold ALPHABET_UNIVERSE. rewrite length_seqZ. lia.
Qed.

Hypothesis A_letters : 20 <= A <= 26.

Lemma Plugboard_init_permutation :
  always (Plugboard_init A)
    (fun p => Plugboard__mapping p ≡ₚ ALPHABET_UNIVERSE A).
Proof.
  eapply always_weaken; [apply Plugboard_init_spec; lia|].
  intros p (pairs & _ & _ & _ & Hall & Hlen & Hpairs & Hrest).
  apply involution_Permutation; [done|].
  intros i Hi. unfold Plugboard_get in *.
  destruct (decide (i ∈ pair_letters pairs)) as [Hin|Hnotin].
  - apply list_elem_of_In, in_flat_map in Hin as ([a b] & Hab & Hi').
    apply list_elem_of_In in Hab. destruct (Hpairs a b Hab) as (_ & Hab1 & Hab2).
    rewrite Forall_forall in Hall.
    assert (0 <= a < A /\ 0 <= b < A) as [Ha Hb].
    { split; apply Hall, list_elem_of_In, in_flat_map; exists (a, b);
        (split; [by apply list_elem_of_In|simpl; auto]). }
    simpl in Hi'. destruct Hi' as [<-|[<-|[]]].
    + by exists b.
    + by exists a.
  - exists i. split; [done|]. split; by apply Hrest.
Qed.

Lemma Rotors_init_fresh (globals : Globals) (n : nat) :
  always (Rotors_init A globals n)
    (fun rotors =>
       length rotors = n
       /\ Forall (fun r => RotorDisc__mapping (_rotor_disc r) ≡ₚ ALPHABET_UNIVERSE A
                           /\ 0 <= notch (alphabet_ring r) <= A
                           /\ Rotor__ringstellung r = Rotor_init_defaults globals)
            rotors).
Proof.
  induction n as [|n IH]; simpl.
  - by apply always_ret.
  - eapply always_bind.
    { unfold Rotor_init, RotorDisc_init, AlphabetRing_init. simpl.
      eapply always_bind.
      { eapply always_bind; [apply shuffle_Permutation|].
        intros m Hm.
        apply always_ret
          with (P := fun d => RotorDisc__mapping d ≡ₚ ALPHABET_UNIVERSE A).
        exact Hm. }
      intros disc Hdisc. eapply always_bind.
      { eapply always_bind; [apply (randomNumber_range A); lia|].
        intros v Hv.
        apply always_ret with (P := fun ring => 0 <= notch ring <= A). exact Hv. }
      intros ring Hring.
      apply always_ret
        with (P := fun r => RotorDisc__mapping (_rotor_disc r) ≡ₚ ALPHABET_UNIVERSE A
                            /\ 0 <= notch (alphabet_ring r) <= A
                            /\ Rotor__ringstellung r = Rotor_init_defaults globals).
      done. }
    intros rotor Hrotor. eapply always_bind; [apply IH|].
    intros rest [Hlen Hrest]. apply always_ret. simpl. split; [lia|].
    by constructor.
Qed.

(** X11.  [Enigma()] always succeeds, for an alphabet of 20 to 26 letters
    and at least one rotor.  The fresh machine has [N] rotors, each with a
    disc that is a permutation of the alphabet and a notch in [[0, A]]; its
    reflector and plugboard are permutations of the alphabet; its mechanism
    has [N - 1] counters, all 0; its parser is empty. *)
Theorem Enigma_init_invariants (globals : Globals) (g : Random) :
  1 <= N ->
  exists e g',
    Enigma_init A N globals g = (Ok e, g')
    /\ permutation_Enigma A e
    /\ length (RotorAssembly_rotors (_rotor_asm e)) = Z.to_nat N
    /\ Forall (fun r => 0 <= notch (alphabet_ring r) <= A)
         (RotorAssembly_rotors (_rotor_asm e))
    /\ wf_prm (_prm (_rotor_asm e))
    /\ _rotation_count (_prm (_rotor_asm e)) = replicate (Z.to_nat N - 1) 0
    /\ _config e = ∅.
Proof.
  intros HN. revert g. unfold Enigma_init, RotorAssembly_init.
  eapply always_bind.
  { eapply always_bind; [apply Rotors_init_fresh|].
    intros rotors Hrotors. eapply always_bind.
    { unfold Reflector_init. eapply always_bind; [apply shuffle_Permutation|].
      intros m Hm.
      apply always_ret
        with (P := fun r => Reflector__mapping r ≡ₚ ALPHABET_UNIVERSE A).
      exact Hm. }
    intros reflector Hrefl.
    apply always_ret
      with (P := fun asm =>
                   Reflector__mapping (_reflector asm) ≡ₚ ALPHABET_UNIVERSE A
                   /\ _prm asm = PawlAndRatchetMechanism_init (_rotors (_prm asm))
                   /\ length (RotorAssembly_rotors asm) = Z.to_nat N
                   /\ Forall
                        (fun r =>
                           RotorDisc__mapping (_rotor_disc r) ≡ₚ ALPHABET_UNIVERSE A
                           /\ 0 <= notch (alphabet_ring r) <= A
                           /\ Rotor__ringstellung r = Rotor_init_defaults globals)
                        (RotorAssembly_rotors asm)).
    destruct Hrotors as [Hlen Hall]. done. }
  intros asm (Hrefl & Hprm & Hlen & Hall).
  eapply always_bind; [apply Plugboard_init_permutation|].
  intros plugboard Hplug. apply always_ret. simpl.
  split; [|split; [done|split; [|split; [|split; [|done]]]]].
  - split; [done|]. split; [done|].
    eapply Forall_impl; [exact Hall|]. by intros r (? & _).
  - eapply Forall_impl; [exact Hall|]. by intros r (_ & ? & _).
  - rewrite Hprm. unfold RotorAssembly_rotors in Hlen. split; simpl.
    + done.
    + rewrite length_replicate. lia.
  - rewrite Hprm. unfold RotorAssembly_rotors in Hlen. simpl.
    f_equal. lia.
Qed.

End Fresh.

Lemma Enigma_init_invariants_witness :
  exists e g',
    Enigma_init 26 3 (mkGlobals 7) tape_one = (Ok e, g')
    /\ permutation_Enigma 26 e
    /\ _rotation_count (_prm (_rotor_asm e)) = [0; 0].
Proof.
  destruct (Enigma_init_invariants 26 3 ltac:(lia) (mkGlobals 7) tape_one ltac:(lia))
    as (e & g' & Hrun & Hperm & _ & _ & _ & Hcount & _).
  exact (ex_intro _ e (ex_intro _ g' (conj Hrun (conj Hperm Hcount)))).
Defined.

(** ** Keyboard and lighting box *)

Section Keys.

Variable A : Z.
Hypothesis A_letters : A <= 26.

Lemma ord_capital (n : Z) : 0 <= n < 26 -> ord (capital n) = 65 + n.
Proof.
  intros Hn. unfold ord, capital. rewrite nat_ascii_embedding by lia. lia.
Qed.

Lemma lower_char_capital (n : Z) : 0 <= n < 26 -> lower_char (capital n) = letter n.
Proof.
  intros Hn. unfold lower_char. cbv zeta.
  pose proof (ord_capital n Hn) as Hord. unfold ord in Hord.
  destruct (decide _) as [_|Hno]; [|lia].
  unfold letter. f_equal. lia.
Qed.

Lemma ascii_of_ord (c : ascii) : ascii_of_nat (Z.to_nat (ord c)) = c.
Proof. unfold ord. rewrite Nat2Z.id. apply ascii_nat_embedding. Qed.

Lemma ord_range (c : ascii) : 0 <= ord c < 256.
Proof. unfold ord. pose proof (nat_ascii_bounded c). lia. Qed.

(** A character that [lower] turns into a letter is that letter or its
    capital. *)
Lemma lower_char_letter_inv (key : ascii) (n : Z) :
  0 <= n < 26 -> lower_char key = letter n -> key = letter n \/ key = capital n.
Proof.
  intros Hn. unfold lower_char. cbv zeta.
  pose proof (ord_range key) as Hkey. unfold ord in Hkey.
  destruct (decide _) as [Hup|_]; [|by left].
  intros Heq. apply (f_equal ord) in Heq. rewrite ord_letter in Heq by done.
  unfold ord in Heq. rewrite nat_ascii_embedding in Heq by lia.
  right. rewrite <- (ascii_of_ord key). unfold capital, ord. f_equal.
  rewrite Nat2Z.id. lia.
Qed.

(** [pressKey] on a key of one character, and on a key of another length. *)
Lemma pressKey_letter (c : ascii) (n : Z) :
  0 <= n < A -> c = letter n \/ c = capital n ->
  pressKey A (String c EmptyString) = Ok n.
Proof.
  intros Hn Hc. unfold pressKey. cbn [lower].
  assert (lower_char c = letter n) as ->.
  { destruct Hc as [-> | ->];
      [apply lower_char_letter|apply lower_char_capital]; lia. }
  cbv zeta. rewrite charToNumber_letter by lia.
  destruct (decide (n ∈ ALPHABET_UNIVERSE A)) as [|Hno]; [done|].
  exfalso. by apply Hno, in_universe.
Qed.

Lemma pressKey_Ok_inv (key : string) (n : Z) :
  pressKey A key = Ok n ->
  0 <= n < A /\ exists c, key = String c EmptyString /\ (c = letter n \/ c = capital n).
Proof.
  destruct key as [|c [|c' key]]; [done| |done].
  unfold pressKey. cbn [lower]. cbv zeta.
  destruct (decide (charToNumber (lower_char c) ∈ ALPHABET_UNIVERSE A))
    as [Hin|]; [|done].
  intros [= <-]. apply in_universe in Hin. split; [done|].
  exists c. split; [done|].
  apply lower_char_letter_inv; [lia|].
  unfold charToNumber in *. change (ord "a") with 97 in *.
  transitivity (ascii_of_nat (Z.to_nat (ord (lower_char c))));
    [symmetry; apply ascii_of_ord|].
  unfold letter. f_equal. f_equal. lia.
Qed.

Lemma pressKey_rejected (key : string) :
  (forall m, pressKey A key <> Ok m) ->
  pressKey A key
  = Raise (if decide (String.length key = 1%nat) then AssertionError else TypeError).
Proof.
  intros Hnone. destruct key as [|c [|c' key]]; [done| |done].
  unfold pressKey in *. cbn [lower] in *. cbv zeta in *.
  destruct (decide (charToNumber (lower_char c) ∈ ALPHABET_UNIVERSE A)); [|done].
  by destruct (Hnone (charToNumber (lower_char c))).
Qed.

(** X12.  Among the keys whose characters are 8-bit, [pressKey] accepts
    exactly the keys of one character that is one of the first [A]
    lower-case letters or its capital, and returns the index of the letter.
    Every other key of one character raises [AssertionError]; the empty key
    and every longer key raise [TypeError].  [lightUp] of an index is its
    lower-case letter, so [pressKey] undoes [lightUp]. *)
Theorem pressKey_accepts_letters (key : string) (n : Z) :
  (pressKey A key = Ok n
   <-> 0 <= n < A
       /\ (key = String (letter n) EmptyString \/ key = String (capital n) EmptyString))
  /\ (0 <= n < A ->
      lightUp n = Ok (letter n) /\ pressKey A (String (letter n) EmptyString) = Ok n)
  /\ ((forall m, pressKey A key <> Ok m) ->
      pressKey A key
      = Raise (if decide (String.length key = 1%nat) then AssertionError
               else TypeError)).
Proof.
  split; [|split].
  - split.
    + intros Hrun. destruct (pressKey_Ok_inv key n Hrun) as (Hn & c & -> & Hc).
      split; [done|]. by destruct Hc as [-> | ->]; [left|right].
    + intros [Hn [-> | ->]]; apply pressKey_letter; auto.
  - intros Hn. unfold lightUp. rewrite numberToChar_letter by lia.
    split; [done|]. apply pressKey_letter; [done|by left].
  - apply pressKey_rejected.
Qed.

(** X13.  One turn of [run] on a line of 8-bit characters.  A line that
    [pressKey] does not accept is rejected before the machine is touched:
    with [AssertionError] when it has one character, with [TypeError] when
    it is empty or longer.  A letter of the alphabet or its capital is
    encoded: the turn steps the machine once and, when the step does not
    raise, returns the letter of the signal path of the key's index. *)
Theorem Enigma_run_turn_letter (e : Enigma) (key : string) :
  0 < A -> wf_Enigma A e ->
  ((forall m, pressKey A key <> Ok m) ->
   Enigma_run_turn A key e
   = (Raise (if decide (String.length key = 1%nat) then AssertionError
             else TypeError), e))
  /\ (forall n, 0 <= n < A ->
        key = String (letter n) EmptyString \/ key = String (capital n) EmptyString ->
        0 <= signal_path A e n < A
        /\ Enigma_run_turn A key e
           = (match fst (PawlAndRatchetMechanism_rotate A (_prm (_rotor_asm e))) with
              | Ok _ => Ok (letter (signal_path A e n))
              | Raise x => Raise x
              end,
              with_rotor_asm
                (with_prm (snd (PawlAndRatchetMechanism_rotate A (_prm (_rotor_asm e))))
                   (_rotor_asm e)) e)).
Proof.
  intros HA Hwf. split.
  - intros Hnone. unfold Enigma_run_turn, bind, lift.
    by rewrite (pressKey_rejected key Hnone).
  - intros n Hn Hkey.
    assert (0 <= signal_path A e n < A) as Hrange.
    { destruct Hwf as (Hplug & Hrefl & Hrotors).
      pose proof (at_index_wf A _ _ Hplug Hn) as Hi2.
      destruct (RotorAssembly_apply_chain A (_rotor_asm e) _ HA Hrefl Hrotors Hi2)
        as [_ Hi3].
      exact (at_index_wf A _ _ Hplug Hi3). }
    split; [exact Hrange|].
    assert (pressKey A key = Ok n) as Hpress
      by (destruct Hkey as [-> | ->]; apply pressKey_letter; auto).
    unfold Enigma_run_turn, bind, lift. rewrite Hpress.
    rewrite (Enigma_get_run A HA e n Hwf Hn).
    destruct (fst (PawlAndRatchetMechanism_rotate A (_prm (_rotor_asm e))));
      [|done].
    unfold lightUp. by rewrite numberToChar_letter by lia.
Qed.

End Keys.

Lemma pressKey_accepts_letters_witness :
  pressKey 26 "Q" = Ok 16 /\ pressKey 26 "" = Raise TypeError.
Proof.
  destruct (pressKey_accepts_letters 26 ltac:(lia) "Q" 16) as [H _].
  destruct (pressKey_accepts_letters 26 ltac:(lia) "" 0) as (_ & _ & H').
  split.
  - apply H. split; [lia|]. right. reflexivity.
  - apply H'. intros m. discriminate.
Defined.

Lemma Enigma_run_turn_letter_witness :
  fst (Enigma_run_turn 26 "C" machine_shift) = Ok (letter 7).
Proof.
  destruct (Enigma_run_turn_letter 26 ltac:(lia) machine_shift "C"
              ltac:(lia) machine_shift_wf) as [_ H].
  destruct (H 2 ltac:(lia) (or_intror eq_refl)) as [_ Hrun].
  exact (f_equal fst Hrun).
Defined.

(** ** More on the plugboard *)

Section PlugboardLoad.

Variable A : Z.
Hypothesis A_letters : A <= 26.

Lemma Plugboard_loadCfg_run (cfg : ConfigParser) (section : string) (p : Plugboard)
    (pairs : list (Z * Z)) :
  Z.of_nat (length (Plugboard__mapping p)) = A ->
  pairs <> [] ->
  NoDup (pair_letters pairs) ->
  Forall (fun x => 0 <= x < A) (pair_letters pairs) ->
  cfg_get cfg section "settings" = Ok (join " " (key_of <$> pairs)) ->
  exists mapping',
    Plugboard_loadCfg A cfg section p
    = (Ok tt, mkPlugboard mapping' (join " " (key_of <$> pairs)))
    /\ length mapping' = length (Plugboard__mapping p)
    /\ (forall a b, (a, b) ∈ pairs ->
          mapping' !! Z.to_nat a = Some b /\ mapping' !! Z.to_nat b = Some a)
    /\ (forall i, 0 <= i -> i ∉ pair_letters pairs ->
          mapping' !! Z.to_nat i = Plugboard__mapping p !! Z.to_nat i).
Proof.
  intros Hlen Hne Hnodup Hall Hget.
  destruct (Plugboard__setup_loop_pairs A A_letters pairs (Plugboard__mapping p)
              (join " " (key_of <$> pairs)) Hlen Hnodup Hall)
    as (mapping' & Hrun & Hlen' & Hout & Hin).
  exists mapping'. split; [|done].
  unfold Plugboard_loadCfg, bind, lift, modify, Plugboard__setup.
  rewrite Hget. cbn [Plugboard__str Plugboard__mapping].
  rewrite split_join_keys; [exact Hrun|done|].
  eapply Forall_impl; [exact Hall|]. simpl. lia.
Qed.

(** X14.  [Plugboard.loadCfg] swaps the pairs of the settings into the
    mapping it already has: the two letters of each pair map to each other
    afterwards, and every letter outside the pairs keeps the entry it had
    before the call, whether an earlier pair set it or not. *)
Theorem Plugboard_loadCfg_keeps_old_entries (cfg : ConfigParser) (section : string)
    (p : Plugboard) (pairs : list (Z * Z)) :
  Z.of_nat (length (Plugboard__mapping p)) = A ->
  pairs <> [] ->
  NoDup (pair_letters pairs) ->
  Forall (fun x => 0 <= x < A) (pair_letters pairs) ->
  cfg_get cfg section "settings" = Ok (join " " (key_of <$> pairs)) ->
  exists p',
    Plugboard_loadCfg A cfg section p = (Ok tt, p')
    /\ Plugboard__str p' = join " " (key_of <$> pairs)
    /\ (forall a b, (a, b) ∈ pairs ->
          Plugboard_get p' a = Ok b /\ Plugboard_get p' b = Ok a)
    /\ (forall i, 0 <= i < A -> i ∉ pair_letters pairs ->
          Plugboard_get p' i = Plugboard_get p i).
Proof.
  intros Hlen Hne Hnodup Hall Hget.
  destruct (Plugboard_loadCfg_run cfg section p pairs Hlen Hne Hnodup Hall Hget)
    as (mapping' & Hrun & Hlen' & Hin & Hout).
  eexists. split; [exact Hrun|]. split; [done|].
  unfold Plugboard_get. cbn [Plugboard__mapping]. split.
  - intros a b Hab. destruct (Hin a b Hab) as [Ha Hb].
    rewrite Forall_forall in Hall.
    assert (0 <= a < A /\ 0 <= b < A) as [Ha' Hb'].
    { split; apply Hall, list_elem_of_In, in_flat_map; exists (a, b);
        (split; [by apply list_elem_of_In|simpl; auto]). }
    split; apply getitem_lookup; (lia || done).
  - intros i Hi Hnotin.
    destruct (getitem_in_range (Plugboard__mapping p) i) as (x & Hx & ->); [lia|].
    apply getitem_lookup; [lia|]. by rewrite Hout by (lia || done).
Qed.

(** X15.  What [Plugboard.loadCfg] does with settings it cannot use.  A
    missing section raises [KeyError] and leaves the plugboard as it was.
    When the section holds the option: empty settings, or one character
    alone, raise [IndexError]; one character twice raises [AssertionError];
    in these cases the settings string is already replaced and the mapping
    is not.  The character is 8-bit and neither a blank, at which [split]
    cuts, nor [%], which the parser would expand. *)
Theorem Plugboard_loadCfg_rejects (cfg : ConfigParser) (section : string)
    (p : Plugboard) :
  (cfg !! section = None ->
   Plugboard_loadCfg A cfg section p = (Raise KeyError, p))
  /\ (cfg_get cfg section "settings" = Ok EmptyString ->
      Plugboard_loadCfg A cfg section p
      = (Raise IndexError, mkPlugboard (Plugboard__mapping p) EmptyString))
  /\ (forall c, c <> " "%char -> c <> "%"%char ->
        cfg_get cfg section "settings" = Ok (String c EmptyString) ->
        Plugboard_loadCfg A cfg section p
        = (Raise IndexError, mkPlugboard (Plugboard__mapping p) (String c EmptyString)))
  /\ (forall c, c <> " "%char -> c <> "%"%char ->
        cfg_get cfg section "settings" = Ok (String c (String c EmptyString)) ->
        Plugboard_loadCfg A cfg section p
        = (Raise AssertionError,
           mkPlugboard (Plugboard__mapping p) (String c (String c EmptyString)))).
Proof.
  split; [|split; [|split]].
  - intros Hnone. unfold Plugboard_loadCfg, bind, lift, cfg_get. by rewrite Hnone.
  - intros Hget. unfold Plugboard_loadCfg, bind, lift, modify, Plugboard__setup.
    by rewrite Hget.
  - intros c Hc _ Hget.
    unfold Plugboard_loadCfg, bind, lift, modify, Plugboard__setup.
    rewrite Hget. cbn [Plugboard__str split].
    destruct (decide (c = " "%char)); [done|]. done.
  - intros c Hc _ Hget.
    unfold Plugboard_loadCfg, bind, lift, modify, Plugboard__setup.
    rewrite Hget. cbn [Plugboard__str split].
    destruct (decide (c = " "%char)); [done|].
    cbn [Plugboard__setup_loop lower]. unfold bind, lift.
    replace (str_getitem (String (lower_char c) (String (lower_char c) EmptyString)) 0)
      with (Ok (lower_char c) : Result ascii) by done.
    replace (str_getitem (String (lower_char c) (String (lower_char c) EmptyString)) 1)
      with (Ok (lower_char c) : Result ascii) by done.
    unfold Plugboard__connect.
    by destruct (decide (lower_char c = lower_char c)).
Qed.

End PlugboardLoad.

Lemma Plugboard_loadCfg_keeps_old_entries_witness :
  exists p',
    Plugboard_loadCfg 26 config_bc "Plugboard" plugboard_ab = (Ok tt, p')
    /\ Plugboard_get p' 0 = Ok 1 /\ Plugboard_get p' 1 = Ok 2
    /\ Plugboard_get p' 2 = Ok 1.
Proof.
  assert (NoDup (pair_letters [(1, 2)])) as Hnodup by decide_by_computation.
  assert (Forall (fun x => 0 <= x < 26) (pair_letters [(1, 2)])) as Hall
    by (simpl; repeat constructor; lia).
  destruct (Plugboard_loadCfg_keeps_old_entries 26 ltac:(lia) config_bc "Plugboard"
              plugboard_ab [(1, 2)] eq_refl ltac:(discriminate) Hnodup Hall eq_refl)
    as (p' & Hrun & _ & Hin & Hout).
  exists p'. split; [exact Hrun|].
  destruct (Hin 1 2 ltac:(constructor)) as [H1 H2].
  split; [|exact (conj H1 H2)].
  rewrite (Hout 0 ltac:(lia) ltac:(decide_by_computation)). reflexivity.
Defined.

Section PlugboardRoundTrip.

Variable A : Z.
Hypothesis A_letters : 20 <= A <= 26.

(** X16.  A fresh plugboard that saves its settings and loads them back is
    unchanged: the settings string describes the mapping. *)
Theorem Plugboard_save_load_same (g : Random) (cfg : ConfigParser) :
  exists p g' cfg',
    Plugboard_init A g = (Ok p, g')
    /\ Plugboard_saveCfg p "Plugboard" cfg = (Ok tt, cfg')
    /\ cfg_get cfg' "Plugboard" "settings" = Ok (Plugboard__str p)
    /\ Plugboard_loadCfg A cfg' "Plugboard" p = (Ok tt, p).
Proof.
  destruct (Plugboard_init_spec A ltac:(lia) ltac:(lia) g)
    as (p & g' & Hrun & pairs & Hstr & Hk & Hnodup & Hall & Hlen & Hpairs & Hrest).
  exists p, g'.
  eexists. split; [exact Hrun|].
  assert (Plugboard_saveCfg p "Plugboard" cfg
          = (Ok tt, <["Plugboard" := <[optionxform "settings" := Plugboard__str p]>
                                       (default ∅ (cfg !! "Plugboard"))]> cfg)) as Hsave.
  { unfold Plugboard_saveCfg, bind. by rewrite cfg_ensure_run, cfg_set_insert. }
  split; [exact Hsave|].
  assert (cfg_get (<["Plugboard" := <[optionxform "settings" := Plugboard__str p]>
                                      (default ∅ (cfg !! "Plugboard"))]> cfg)
            "Plugboard" "settings" = Ok (Plugboard__str p)) as Hget
    by (by rewrite cfg_get_insert_eq, lookup_insert_eq).
  split; [exact Hget|].
  rewrite Hstr in Hget.
  destruct (Plugboard_loadCfg_run A ltac:(lia) _ _ p pairs Hlen
              ltac:(by destruct pairs; simpl in *; [lia|]) Hnodup Hall Hget)
    as (mapping' & Hload & Hlen' & Hin & Hout).
  rewrite <- Hstr in Hload. rewrite Hload. f_equal.
  destruct p as [mapping str]. simpl in *.
  f_equal. apply list_eq. intros idx.
  destruct (decide (idx < length mapping)%nat) as [Hidx|Hidx].
  - destruct (decide (Z.of_nat idx ∈ pair_letters pairs)) as [Hmem|Hnot].
    + apply list_elem_of_In, in_flat_map in Hmem as ([a b] & Hab & Hi').
      apply list_elem_of_In in Hab.
      destruct (Hpairs a b Hab) as (_ & Hab1 & Hab2).
      destruct (Hin a b Hab) as [Ha Hb].
      rewrite Forall_forall in Hall.
      assert (0 <= a < A /\ 0 <= b < A) as [Ha' Hb'].
      { split; apply Hall, list_elem_of_In, in_flat_map; exists (a, b);
          (split; [by apply list_elem_of_In|simpl; auto]). }
      unfold Plugboard_get in *. simpl in *.
      apply getitem_Ok_nonneg in Hab1; [|lia].
      apply getitem_Ok_nonneg in Hab2; [|lia].
      destruct Hi' as [Heq|[Heq|[]]]; rewrite <- (Nat2Z.id idx), <- Heq; congruence.
    + specialize (Hout (Z.of_nat idx) ltac:(lia) Hnot).
      by rewrite Nat2Z.id in Hout.
  - rewrite !lookup_ge_None_2 by lia. done.
Qed.

End PlugboardRoundTrip.

Lemma Plugboard_save_load_same_witness :
  exists p g' cfg',
    Plugboard_init 26 tape_zero = (Ok p, g')
    /\ Plugboard_saveCfg p "Plugboard" ∅ = (Ok tt, cfg')
    /\ cfg_get cfg' "Plugboard" "settings" = Ok (Plugboard__str p)
    /\ Plugboard_loadCfg 26 cfg' "Plugboard" p = (Ok tt, p).
Proof. exact (Plugboard_save_load_same 26 ltac:(lia) tape_zero ∅). Defined.

(** ** Loading a configuration that does not fit the machine *)

Lemma Rotor_loadCfg_missing (cfg : ConfigParser) (section : string) (self : Rotor) :
  cfg !! section = None -> Rotor_loadCfg cfg section self = (Raise KeyError, self).
Proof.
  intros Hnone. unfold Rotor_loadCfg, bind, lift, cfg_get. by rewrite Hnone.
Qed.

Lemma Rotors_loadCfg_missing (cfg : ConfigParser) (self rotors : list Rotor) (idx : nat) :
  (length rotors < length self)%nat ->
  (forall j r, rotors !! j = Some r -> rotor_saved r cfg (rotorSectionName (idx + j))) ->
  cfg !! rotorSectionName (idx + length rotors) = None ->
  Rotors_loadCfg cfg idx self = (Raise KeyError, rotors ++ drop (length rotors) self).
Proof.
  revert self idx. induction rotors as [|r rotors IH]; intros self idx Hlen Hsaved Hnone.
  - destruct self as [|r0 self]; [simpl in Hlen; lia|].
    simpl in Hnone. rewrite Nat.add_0_r in Hnone.
    cbn [Rotors_loadCfg]. by rewrite Rotor_loadCfg_missing.
  - destruct self as [|r0 self]; [simpl in Hlen; lia|].
    cbn [Rotors_loadCfg].
    rewrite (Rotor_loadCfg_saved cfg _ r r0).
    2:{ specialize (Hsaved 0%nat r eq_refl). by rewrite Nat.add_0_r in Hsaved. }
    rewrite (IH self (S idx)).
    + done.
    + simpl in Hlen. lia.
    + intros j r' Hj. specialize (Hsaved (S j) r' Hj).
      by replace (S idx + j)%nat with (idx + S j)%nat by lia.
    + simpl in Hnone. by replace (S idx + length rotors)%nat
        with (idx + S (length rotors))%nat by lia.
Qed.

(** X17.  [RotorAssembly.loadCfg] is not all-or-nothing.  When the
    configuration holds a reflector and the sections of the first [k] rotors
    but no section for rotor [k + 1] of the machine, the call raises
    [KeyError] after it has replaced the reflector and the first [k] rotors;
    the rotors from [k + 1] on and the mechanism's counters are as before. *)
Theorem RotorAssembly_loadCfg_stops_at_missing_rotor (cfg : ConfigParser)
    (self : RotorAssembly) (mapping : list Z) (rotors : list Rotor) :
  cfg_get cfg "Reflector" "config" = Ok (dumps mapping) ->
  (length rotors < length (RotorAssembly_rotors self))%nat ->
  (forall j r, rotors !! j = Some r -> rotor_saved r cfg (rotorSectionName j)) ->
  cfg !! rotorSectionName (length rotors) = None ->
  RotorAssembly_loadCfg cfg self
  = (Raise KeyError,
     mkRotorAssembly (mkReflector mapping)
       (mkPawlAndRatchetMechanism
          (rotors ++ drop (length rotors) (RotorAssembly_rotors self))
          (_n (_prm self)) (_rotation_count (_prm self)))).
Proof.
  intros Hrefl Hlen Hsaved Hnone.
  unfold RotorAssembly_loadCfg, bind, zoom.
  destruct (decide (is_Some (cfg !! "Reflector"))) as [_|Hno].
  2:{ exfalso. apply Hno. unfold cfg_get in Hrefl.
      by destruct (cfg !! "Reflector"). }
  rewrite (Reflector_loadCfg_saved cfg mapping) by done.
  unfold RotorAssembly_rotors in *. cbn [with_reflector _prm].
  rewrite (Rotors_loadCfg_missing cfg _ rotors 0) by done.
  done.
Qed.

Lemma RotorAssembly_loadCfg_stops_at_missing_rotor_witness :
  RotorAssembly_loadCfg config_one (_rotor_asm machine_shift)
  = (Raise KeyError,
     mkRotorAssembly (mkReflector (seqZ 0 26))
       (mkPawlAndRatchetMechanism [rotor_identity; rotor_shift; rotor_shift] 3 [0; 0])).
Proof.
  apply (RotorAssembly_loadCfg_stops_at_missing_rotor config_one
           (_rotor_asm machine_shift) (seqZ 0 26) [rotor_identity]).
  - vm_compute. reflexivity.
  - simpl. lia.
  - intros [|j] r Hr; [|destruct j; discriminate Hr].
    injection Hr as <-. repeat split; vm_compute; reflexivity.
  - vm_compute. reflexivity.
Defined.

(** X18.  The section [Reflector] is optional for [RotorAssembly.loadCfg]
    and the rotor sections are not: without it the reflector stays and the
    rotors are loaded; with neither that section nor one for the first
    rotor the call raises [KeyError] and the assembly is as it was. *)
Theorem RotorAssembly_loadCfg_optional_reflector (cfg : ConfigParser)
    (self : RotorAssembly) :
  (cfg !! "Reflector" = None ->
   forall rotors,
     length (RotorAssembly_rotors self) = length rotors ->
     (forall j r, rotors !! j = Some r -> rotor_saved r cfg (rotorSectionName j)) ->
     RotorAssembly_loadCfg cfg self
     = (Ok tt,
        mkRotorAssembly (_reflector self)
          (mkPawlAndRatchetMechanism rotors (_n (_prm self))
             (_rotation_count (_prm self)))))
  /\ (cfg !! "Reflector" = None ->
      RotorAssembly_rotors self <> [] ->
      cfg !! rotorSectionName 0 = None ->
      RotorAssembly_loadCfg cfg self = (Raise KeyError, self)).
Proof.
  split.
  - intros Hnone rotors Hlen Hsaved.
    unfold RotorAssembly_loadCfg, bind, zoom, ret.
    destruct (decide (is_Some (cfg !! "Reflector"))) as [Hsome|_].
    { rewrite Hnone in Hsome. by destruct Hsome. }
    by rewrite (Rotors_loadCfg_saved cfg _ rotors 0).
  - intros Hnone Hne Hfirst.
    unfold RotorAssembly_loadCfg, bind, zoom, ret.
    destruct (decide (is_Some (cfg !! "Reflector"))) as [Hsome|_].
    { rewrite Hnone in Hsome. by destruct Hsome. }
    rewrite (Rotors_loadCfg_missing cfg _ [] 0);
      [|destruct (RotorAssembly_rotors self); [done|simpl; lia]|done|done].
    simpl. rewrite drop_0. by destruct self as [? []].
Qed.

(** ** The first rotor *)

Lemma Rotor_rotate_iter (r : Rotor) (k : nat) :
  Nat.iter k Rotor_rotate r
  = mkRotor (Nat.iter k RotorDisc_rotate (_rotor_disc r)) (_alphabet_ring r)
      (Rotor__ringstellung r).
Proof.
  induction k as [|k IH]; [by destruct r|].
  rewrite !Nat.iter_succ, IH. done.
Qed.

Section FirstRotor.

Variable A : Z.
Hypothesis A_pos : 0 < A.

Lemma Enigma_get_first_rotor_step (e : Enigma) (i : Z) (r0 : Rotor) (c0 : Z) :
  wf_Enigma A e -> wf_prm (_prm (_rotor_asm e)) -> 0 <= i < A ->
  RotorAssembly_rotors (_rotor_asm e) !! 0%nat = Some r0 ->
  _rotation_count (_prm (_rotor_asm e)) !! 0%nat = Some c0 ->
  RotorAssembly_rotors (_rotor_asm (snd (Enigma_get A i e))) !! 0%nat
  = Some (Rotor_rotate r0)
  /\ _rotation_count (_prm (_rotor_asm (snd (Enigma_get A i e)))) !! 0%nat
     = Some ((c0 + 1) mod A).
Proof.
  intros Hwf Hprm Hi Hr0 Hc0.
  rewrite (Enigma_get_run A A_pos e i Hwf Hi). cbn [snd].
  destruct (rotate_outcome A _ ltac:(lia) Hprm)
    as (prm' & Hrun & _ & _ & Hrotors & _ & Hcount).
  rewrite Hrun. cbn [snd].
  unfold RotorAssembly_rotors in *. cbn [_rotor_asm with_rotor_asm _prm with_prm].
  assert (0%nat <> last_rotor (_prm (_rotor_asm e))) as Hlast.
  { destruct Hprm as [_ Hlen]. apply lookup_lt_Some in Hc0.
    unfold last_rotor. lia. }
  rewrite (Hrotors 0%nat Hlast), (Hcount 0%nat), Hr0, Hc0. done.
Qed.

Lemma first_rotor_after (inputs : list Z) (e : Enigma) (r0 : Rotor) (c0 : Z) :
  permutation_Enigma A e -> wf_prm (_prm (_rotor_asm e)) ->
  Forall (fun c => 0 <= c < A) (_rotation_count (_prm (_rotor_asm e))) ->
  Forall (fun i => 0 <= i < A) inputs ->
  RotorAssembly_rotors (_rotor_asm e) !! 0%nat = Some r0 ->
  _rotation_count (_prm (_rotor_asm e)) !! 0%nat = Some c0 ->
  RotorAssembly_rotors
    (_rotor_asm (foldl (fun e i => snd (Enigma_get A i e)) e inputs)) !! 0%nat
  = Some (Nat.iter (length inputs) Rotor_rotate r0)
  /\ _rotation_count
       (_prm (_rotor_asm (foldl (fun e i => snd (Enigma_get A i e)) e inputs)))
       !! 0%nat
     = Some ((c0 + Z.of_nat (length inputs)) mod A).
Proof.
  intros Hperm Hprm Hcount Hinputs. revert e r0 c0 Hperm Hprm Hcount.
  induction Hinputs as [|i inputs Hi Hinputs IH];
    intros e r c Hperm Hprm Hcount Hr Hc.
  - simpl. split; [done|]. rewrite Z.add_0_r, Z.mod_small; [done|].
    by apply (Forall_lookup_1 _ _ _ _ Hcount Hc).
  - cbn [foldl length].
    destruct (Enigma_get_step_keeps_invariants A A_pos e i Hperm Hprm Hcount)
      as (Hperm' & Hprm' & Hcount').
    destruct (Enigma_get_first_rotor_step e i r c
                (permutation_Enigma_wf A A_pos e Hperm) Hprm Hi Hr Hc)
      as [Hr' Hc'].
    destruct (IH _ _ _ Hperm' Hprm' Hcount' Hr' Hc') as [-> ->].
    split.
    + by rewrite Nat.iter_succ_r.
    + f_equal. rewrite Zplus_mod_idemp_l. f_equal. lia.
Qed.

(** X19.  Rotor 0 turns with every key.  On a machine of at least two
    rotors that keeps the invariants, a sequence of valid inputs leaves
    rotor 0 rotated once per input and its counter advanced once per input
    modulo [A], whether or not the calls raise; after [A] inputs rotor 0 and
    its counter are back where they started. *)
Theorem first_rotor_turns_with_every_key (e : Enigma) (inputs : list Z)
    (r0 : Rotor) (c0 : Z) :
  permutation_Enigma A e -> wf_prm (_prm (_rotor_asm e)) ->
  Forall (fun c => 0 <= c < A) (_rotation_count (_prm (_rotor_asm e))) ->
  Forall (fun i => 0 <= i < A) inputs ->
  RotorAssembly_rotors (_rotor_asm e) !! 0%nat = Some r0 ->
  _rotation_count (_prm (_rotor_asm e)) !! 0%nat = Some c0 ->
  let e' := foldl (fun e i => snd (Enigma_get A i e)) e inputs in
  RotorAssembly_rotors (_rotor_asm e') !! 0%nat
  = Some (Nat.iter (length inputs) Rotor_rotate r0)
  /\ _rotation_count (_prm (_rotor_asm e')) !! 0%nat
     = Some ((c0 + Z.of_nat (length inputs)) mod A)
  /\ (Z.of_nat (length inputs) = A ->
      RotorAssembly_rotors (_rotor_asm e') !! 0%nat = Some r0
      /\ _rotation_count (_prm (_rotor_asm e')) !! 0%nat = Some c0).
Proof.
  intros Hperm Hprm Hcount Hinputs Hr0 Hc0. cbv zeta.
  destruct (first_rotor_after inputs e r0 c0 Hperm Hprm Hcount Hinputs Hr0 Hc0)
    as [Hrotor Hcounter].
  split; [exact Hrotor|]. split; [exact Hcounter|].
  intros Hlen. rewrite Hrotor, Hcounter. split; f_equal.
  - destruct Hperm as (_ & _ & Hrotors).
    rewrite Forall_lookup in Hrotors. specialize (Hrotors _ _ Hr0).
    assert (length inputs = length (RotorDisc__mapping (_rotor_disc r0))) as ->.
    { rewrite Hrotors. unfold ALPHABET_UNIVERSE. rewrite length_seqZ. lia. }
    rewrite Rotor_rotate_iter, RotorDisc_rotate_iter_length. by destruct r0.
  - rewrite Hlen, <- (Z.mul_1_l A) at 1. rewrite Z.mod_add by lia.
    apply Z.mod_small. by apply (Forall_lookup_1 _ _ _ _ Hcount Hc0).
Qed.

End FirstRotor.

Lemma first_rotor_turns_with_every_key_witness :
  RotorAssembly_rotors
    (_rotor_asm (foldl (fun e i => snd (Enigma_get 26 i e)) machine_shift [2; 7; 0]))
    !! 0%nat
  = Some (Nat.iter 3 Rotor_rotate rotor_shift).
Proof.
  destruct (first_rotor_turns_with_every_key 26 ltac:(lia) machine_shift [2; 7; 0]
              rotor_shift 0 machine_shift_permutation ltac:(split; reflexivity)
              ltac:(repeat constructor; lia) ltac:(repeat constructor; lia)
              eq_refl eq_refl) as [H _].
  exact H.
Defined.

(** ** What [loadCfg] never touches *)

Lemma Rotors_loadCfg_length (cfg : ConfigParser) (rotors : list Rotor) (idx : nat) :
  length (snd (Rotors_loadCfg cfg idx rotors)) = length rotors.
Proof.
  revert idx. induction rotors as [|r rotors IH]; intros idx; [done|].
  cbn [Rotors_loadCfg].
  destruct (Rotor_loadCfg cfg (rotorSectionName idx) r) as [[[]|x] r']; [|done].
  specialize (IH (S idx)).
  destruct (Rotors_loadCfg cfg (S idx) rotors) as [res rest']. simpl in *.
  by rewrite IH.
Qed.

Lemma RotorAssembly_loadCfg_frame (cfg : ConfigParser) (self : RotorAssembly) :
  _n (_prm (snd (RotorAssembly_loadCfg cfg self))) = _n (_prm self)
  /\ _rotation_count (_prm (snd (RotorAssembly_loadCfg cfg self)))
     = _rotation_count (_prm self)
  /\ length (RotorAssembly_rotors (snd (RotorAssembly_loadCfg cfg self)))
     = length (RotorAssembly_rotors self).
Proof.
  unfold RotorAssembly_loadCfg, bind, zoom, ret.
  destruct (decide (is_Some (cfg !! "Reflector"))) as [_|_].
  - destruct (Reflector_loadCfg cfg "Reflector" (_reflector self)) as [[[]|x] refl'].
    + pose proof (Rotors_loadCfg_length cfg
                    (RotorAssembly_rotors (with_reflector refl' self)) 0) as Hlen.
      destruct (Rotors_loadCfg cfg 0 (RotorAssembly_rotors (with_reflector refl' self)))
        as [res rotors'].
      by destruct self as [? []].
    + by destruct self as [? []].
  - pose proof (Rotors_loadCfg_length cfg (RotorAssembly_rotors self) 0) as Hlen.
    destruct (Rotors_loadCfg cfg 0 (RotorAssembly_rotors self)) as [res rotors'].
    by destruct self as [? []].
Qed.

(** X20.  [Enigma.loadCfg] never touches the plugboard, the stepping
    counters or the number of rotors, whatever the file holds and whether or
    not the call raises: it restores neither the plugboard that [saveCfg]
    wrote nor the positions the counters stood at. *)
Theorem Enigma_loadCfg_frame (fs : FileSystem) (path : string) (e : Enigma) :
  let e' := snd (Enigma_loadCfg fs path e) in
  _plugboard e' = _plugboard e
  /\ _n (_prm (_rotor_asm e')) = _n (_prm (_rotor_asm e))
  /\ _rotation_count (_prm (_rotor_asm e')) = _rotation_count (_prm (_rotor_asm e))
  /\ length (RotorAssembly_rotors (_rotor_asm e'))
     = length (RotorAssembly_rotors (_rotor_asm e)).
Proof.
  cbv zeta. unfold Enigma_loadCfg.
  destruct (isConfigFilePresent fs path); [|done].
  unfold bind, modify, gets, zoom. cbn [_config with_config _rotor_asm].
  pose proof (RotorAssembly_loadCfg_frame
                (cfg_read (default ∅ (fs !! path)) (_config e)) (_rotor_asm e)) as H.
  destruct (RotorAssembly_loadCfg _ (_rotor_asm e)) as [res asm'].
  by destruct res.
Qed.
